(** * MiscellaneousAPI: the secure sampling helpers and the passphrase handler

    A shallow embedding of [src/main.py]: the three helpers built on
    [secrets.randbelow] ([_secure_sample], [_secure_choice],
    [_secure_randint]), the [/random-passphrase] handler, the other handlers
    that draw ([flip_coin], [roll_dice], [random_number], [random_string]),
    the loading of the word list, the [ip] handler, and the [random_dog]
    handler as a function of what the upstream service answered.

    Python values are modelled as follows.
    - [int] is [Z]; [len(x)] is [len x : Z].
    - [str] is [string], one character per element, with codes below 256.
      Header values are such strings (they are decoded as Latin-1), and
      [isspace] and [strip] are Python's on them.  The case methods
      [lower], [upper] and [title] are Python's on ASCII text only: the
      properties that depend on the case of letters assume ASCII words.
      The message of the dog service comes out of a JSON decoder and may
      hold any code point; it is modelled by its code points ([text]).
    - a [list] is a [list], indexed and updated through [getitem] and
      [setitem], which raise [IndexError] out of range as Python does.
    - the [set] of seen indices is a [gset Z].
    - the entropy source is a tape of raw draws: every call of
      [secrets.randbelow n] with [0 < n] consumes one draw [d] and yields
      [d mod n], so that every value of [[0, n)] can come out and nothing
      else can.  A computation that asks for a draw on the empty tape is
      [Starved]: the model of a run that has not finished with the entropy
      supplied so far.
    - exceptions are results: [Raise e rest] carries the exception and the
      tape that was left when it was raised. *)

From Stdlib Require Import ZArith Ascii String List Lia Bool DecimalString.
From Stdlib Require Decimal DecimalPos DecimalZ.
From stdpp Require Import gmap strings list.

Local Open Scope string_scope.
Local Open Scope Z_scope.

(** ** Exceptions, the entropy tape and the computation monad *)

Inductive exn : Type :=
| ValueError (msg : string)
| IndexError (msg : string).

Definition tape : Type := list Z.

Inductive outcome (A : Type) : Type :=
| Ok (a : A) (rest : tape)
| Raise (e : exn) (rest : tape)
| Starved.

Arguments Ok {A} a rest.
Arguments Raise {A} e rest.
Arguments Starved {A}.

Definition M (A : Type) : Type := tape -> outcome A.

Definition ret {A} (a : A) : M A := fun t => Ok a t.

Definition raise {A} (e : exn) : M A := fun t => Raise e t.

Definition bind {A B} (c : M A) (k : A -> M B) : M B :=
  fun t =>
    match c t with
    | Ok a rest => k a rest
    | Raise e rest => Raise e rest
    | Starved => Starved
    end.

Notation "'let*' x ':=' c 'in' k" := (bind c (fun x => k))
  (at level 10, x name, c at level 100, k at level 200).

(** [len(x)] of a list. *)
Definition len {A} (l : list A) : Z := Z.of_nat (length l).

(** [secrets.randbelow(exclusive_upper_bound)]: the standard library raises
    [ValueError] on a bound that is not positive, before drawing. *)
Definition randbelow_msg : string := "Upper bound must be positive.".

Definition randbelow (exclusive_upper_bound : Z) : M Z :=
  fun t =>
    if exclusive_upper_bound <=? 0 then Raise (ValueError randbelow_msg) t
    else match t with
         | [] => Starved
         | d :: rest => Ok (d mod exclusive_upper_bound) rest
         end.

(** Python's index normalisation: a negative index counts from the end. *)
Definition norm_index {A} (l : list A) (index : Z) : option nat :=
  let i := if index <? 0 then index + len l else index in
  if (0 <=? i) && (i <? len l) then Some (Z.to_nat i) else None.

(** [l[index]] *)
Definition getitem {A} (l : list A) (index : Z) : M A :=
  match norm_index l index with
  | Some i =>
      match l !! i with
      | Some x => ret x
      | None => raise (IndexError "list index out of range")
      end
  | None => raise (IndexError "list index out of range")
  end.

(** [l[index] = v], as the list after the assignment. *)
Definition setitem {A} (l : list A) (index : Z) (v : A) : M (list A) :=
  match norm_index l index with
  | Some i => ret (<[i := v]> l)
  | None => raise (IndexError "list assignment index out of range")
  end.

(** ** The helpers (main.py, lines 36-60) *)

Definition sample_msg : string :=
  "Sample size cannot exceed the number of available items.".

Section Helpers.
Context {A : Type}.

(** The [while] loop of [_secure_sample] (lines 43-47).  Every iteration
    draws once, so a loop started with more fuel than the tape has draws
    never runs out of fuel before it runs out of entropy
    (see [while_sample_fuel]). *)
Fixpoint while_sample (fuel : nat) (items : list A) (sample_size : Z)
    (sampled_items : list A) (seen_indices : gset Z) : M (list A) :=
  if len sampled_items <? sample_size then
    match fuel with
    | O => fun _ => Starved
    | S fuel' =>
        let* index := randbelow (len items) in
        if decide (index ∈ seen_indices) then
          while_sample fuel' items sample_size sampled_items seen_indices
        else
          let* x := getitem items index in
          while_sample fuel' items sample_size
            (sampled_items ++ [x]) ({[index]} ∪ seen_indices)
    end
  else ret sampled_items.

Definition _secure_sample (items : list A) (sample_size : Z) : M (list A) :=
  fun t =>
    if sample_size >? len items then Raise (ValueError sample_msg) t
    else while_sample (S (length t)) items sample_size [] ∅ t.

Definition _secure_choice (items : list A) : M A :=
  let* index := randbelow (len items) in
  getitem items index.
End Helpers.

Definition _secure_randint (min_value max_value : Z) : M Z :=
  let range_size := max_value - min_value + 1 in
  let* random_offset := randbelow range_size in
  ret (min_value + random_offset).

(** ** Python's [str] methods used by the handler *)

Definition is_upper (c : ascii) : bool :=
  let n := nat_of_ascii c in (65 <=? n)%nat && (n <=? 90)%nat.

Definition is_lower (c : ascii) : bool :=
  let n := nat_of_ascii c in (97 <=? n)%nat && (n <=? 122)%nat.

Definition to_lower (c : ascii) : ascii :=
  if is_upper c then ascii_of_nat (nat_of_ascii c + 32) else c.

Definition to_upper (c : ascii) : ascii :=
  if is_lower c then ascii_of_nat (nat_of_ascii c - 32) else c.

(** [s.lower()] and [s.upper()], on ASCII text (see [is_ascii]): on other
    text Python's methods map more characters than these do. *)
Fixpoint lower (s : string) : string :=
  match s with
  | EmptyString => EmptyString
  | String c s' => String (to_lower c) (lower s')
  end.

Fixpoint upper (s : string) : string :=
  match s with
  | EmptyString => EmptyString
  | String c s' => String (to_upper c) (upper s')
  end.

(** [s.title()], on ASCII text: a cased character (a letter) is upper-cased
    when the character before it is not cased (or it is the first one),
    lower-cased otherwise. *)
Fixpoint title_from (previous_is_cased : bool) (s : string) : string :=
  match s with
  | EmptyString => EmptyString
  | String c s' =>
      if is_upper c || is_lower c then
        String (if previous_is_cased then to_lower c else to_upper c)
               (title_from true s')
      else String c (title_from false s')
  end.

Definition title (s : string) : string := title_from false s.

(** ASCII text: every character has a code below 128.  On such text
    [lower], [upper] and [title] are Python's methods. *)
Fixpoint is_ascii (s : string) : bool :=
  match s with
  | EmptyString => true
  | String c s' => (nat_of_ascii c <? 128)%nat && is_ascii s'
  end.

(** [sub in s] on strings: [sub] occurs in [s] as a contiguous substring. *)
Fixpoint contains (sub s : string) : bool :=
  String.prefix sub s ||
  match s with
  | EmptyString => false
  | String _ s' => contains sub s'
  end.

(** [s.replace(old, new)].  With a non-empty [old] the string is scanned
    from the left, every occurrence found is replaced and the scan resumes
    after it ([skip] counts the characters of the occurrence still to pass
    over); with an empty [old], [new] is put before every character and at
    the end. *)
Fixpoint replace_scan (old new s : string) (skip : nat) : string :=
  match s with
  | EmptyString => EmptyString
  | String c s' =>
      match skip with
      | S n => replace_scan old new s' n
      | O =>
          if String.prefix old s
          then new +:+ replace_scan old new s' (String.length old - 1)
          else String c (replace_scan old new s' 0)
      end
  end.

Fixpoint replace_empty (new s : string) : string :=
  match s with
  | EmptyString => new
  | String c s' => new +:+ String c (replace_empty new s')
  end.

Definition replace (old new s : string) : string :=
  match old with
  | EmptyString => replace_empty new s
  | _ => replace_scan old new s 0
  end.

(** [sep.join(l)] *)
Definition join (sep : string) (l : list string) : string :=
  String.concat sep l.

(** [str(n)] of an integer. *)
Definition str (n : Z) : string := NilZero.string_of_int (Z.to_int n).

(** A string as the sequence of its one-character strings, which is what
    [len] and indexing see when a [str] is passed as a [Sequence]. *)
Fixpoint chars (s : string) : list string :=
  match s with
  | EmptyString => []
  | String c s' => String c EmptyString :: chars s'
  end.

(** ** The handler [random_passphrase] (main.py, lines 138-175) *)

(** Lines 148-158: the case transformation. *)
Definition case_step (case : string) (chosen_words : list string)
    : M (list string) :=
  if String.eqb case "lower" then ret (map lower chosen_words)
  else if String.eqb case "upper" then ret (map upper chosen_words)
  else if String.eqb case "title" then ret (map title chosen_words)
  else if String.eqb case "camel" then
    let chosen_words := map title chosen_words in
    let* first := getitem chosen_words 0 in
    setitem chosen_words 0 (lower first)
  else ret chosen_words.

(** Lines 160-162.  In [chosen_words[index] += ...] the element is read
    before the right-hand side is evaluated. *)
Definition numbers_step (chosen_words : list string) : M (list string) :=
  let* index := _secure_randint 0 (len chosen_words - 1) in
  let* word := getitem chosen_words index in
  let* digit := _secure_randint 0 9 in
  setitem chosen_words index (word +:+ str digit).

(** Lines 166-169: the symbols a separator leaves to choose from. *)
Definition symbol_candidates (separator : string) : string :=
  let random_symbols := "!@#$%&" in
  if contains separator random_symbols
  then replace separator EmptyString random_symbols
  else random_symbols.

(** Lines 164-171. *)
Definition symbols_step (separator : string) (chosen_words : list string)
    : M (list string) :=
  let* index := _secure_randint 0 (len chosen_words - 1) in
  let random_symbols := symbol_candidates separator in
  let* word := getitem chosen_words index in
  let* symbol := _secure_choice (chars random_symbols) in
  setitem chosen_words index (word +:+ symbol).

(** Lines 146-171: the words as they stand just before they are joined.
    [PASSPHRASE_WORD_LIST] is read from a file at start-up and is a
    parameter here. *)
Definition passphrase_words (PASSPHRASE_WORD_LIST : list string)
    (words : Z) (numbers symbols : bool) (separator case : string)
    : M (list string) :=
  let* chosen_words := _secure_sample PASSPHRASE_WORD_LIST words in
  let* chosen_words := case_step case chosen_words in
  let* chosen_words :=
    if numbers then numbers_step chosen_words else ret chosen_words in
  if symbols then symbols_step separator chosen_words else ret chosen_words.

(** The body of the response: line 173. *)
Definition random_passphrase (PASSPHRASE_WORD_LIST : list string)
    (words : Z) (numbers symbols : bool) (separator case : string)
    : M string :=
  let* chosen_words :=
    passphrase_words PASSPHRASE_WORD_LIST words numbers symbols separator case in
  ret (join separator chosen_words).

(** What the query declaration of the handler lets through (lines 140-144):
    [1 <= words <= 20], a separator of at most three characters, one of the
    four case modes. *)
Definition valid_case (case : string) : bool :=
  String.eqb case "lower" || String.eqb case "upper" ||
  String.eqb case "title" || String.eqb case "camel".

Definition valid_query (words : Z) (separator case : string) : bool :=
  (1 <=? words) && (words <=? 20) &&
  (String.length separator <=? 3)%nat && valid_case case.

(** ** Splitting a passphrase again

    [s.split(sep)] for a non-empty [sep], the operation the word-count
    property is phrased with: the string is scanned from the left and cut at
    every occurrence of [sep] found.  The head of the result is the segment
    being read. *)
Fixpoint split_scan (sep s : string) (skip : nat) : list string :=
  match s with
  | EmptyString => [EmptyString]
  | String c s' =>
      match skip with
      | S n => split_scan sep s' n
      | O =>
          if String.prefix sep s
          then EmptyString :: split_scan sep s' (String.length sep - 1)
          else match split_scan sep s' 0 with
               | seg :: segs => String c seg :: segs
               | [] => [String c EmptyString]
               end
      end
  end.

Definition split (sep s : string) : list string := split_scan sep s 0.

(** ** Predicates used to state the properties *)

(** The loop invariant: the sample so far was read at pairwise distinct
    positions of [items], and [seen] is the set of these positions. *)
Definition sampled_at {A} (items : list A) (idxs : list nat) (xs : list A) : Prop :=
  NoDup idxs /\ Forall2 (fun i x => items !! i = Some x) idxs xs.

Definition seen_is (seen : gset Z) (idxs : list nat) : Prop :=
  forall z, z ∈ seen <-> exists i, i ∈ idxs /\ z = Z.of_nat i.

(** The set of indices that the draws of [t] give below [n]. *)
Definition drawn_indices (n : Z) (t : tape) : gset Z :=
  list_to_set (map (fun d => d mod n) t).

(** All contiguous substrings of [s] (with repetitions). *)
Definition substrings (s : string) : list string :=
  flat_map (fun i => map (fun n => substring i n s) (seq 0 (S (String.length s))))
           (seq 0 (S (String.length s))).

(** The first character of the separator does not occur in [w]. *)
Definition separator_head_free (separator w : string) : Prop :=
  match separator with
  | EmptyString => True
  | String c _ => String c EmptyString ∉ chars w
  end.

(** The outcome is not an exception. *)
Definition not_raised {A} (o : outcome A) : Prop :=
  match o with
  | Raise _ _ => False
  | _ => True
  end.

(** The draws on which the handler returns the first [words] words of the
    list, with a digit and a symbol put on the first of them if asked. *)
Definition first_words_tape (words : Z) (numbers symbols : bool) : tape :=
  (map Z.of_nat (seq 0 (Z.to_nat words))
   ++ (if numbers then [0; 0] else []) ++ (if symbols then [0; 0] else []))%list.

(** ** The other handlers that draw (main.py, lines 107-129) *)

(** [flip_coin] (lines 107-110): the body of the response. *)
Definition flip_coin : M string :=
  let* result := _secure_randint 0 1 in
  ret (str result).

(** [roll_dice] (lines 113-116). *)
Definition roll_dice (sides : Z) : M string :=
  let* result := _secure_randint 1 sides in
  ret (str result).

(** [random_number] (lines 119-122). *)
Definition random_number (min max : Z) : M string :=
  let* result := _secure_randint min max in
  ret (str result).

(** What the query declarations let through: [2 <= sides <= 1000] for
    [roll_dice]; [0 <= min] and [max <= 1_000_000_000] for [random_number],
    which are checked separately from each other. *)
Definition valid_sides (sides : Z) : bool := (2 <=? sides) && (sides <=? 1000).

Definition valid_number_query (min max : Z) : bool :=
  (0 <=? min) && (max <=? 1000000000).

(** [for _ in range(n)], collecting what the body yields. *)
Fixpoint for_range {A} (n : nat) (body : M A) : M (list A) :=
  match n with
  | O => ret []
  | S n' =>
      let* x := body in
      let* xs := for_range n' body in
      ret (x :: xs)
  end.

(** [random_string] (lines 125-129); [range(length)] is empty for a length
    that is not positive. *)
Definition letters : string :=
  "abcdefghijklmnopqrstuvwxyzABCDEFGHIJKLMNOPQRSTUVWXYZ".

Definition random_string (length : Z) : M string :=
  let* picked := for_range (Z.to_nat length) (_secure_choice (chars letters)) in
  ret (join EmptyString picked).

(** ** Stripping, the word list and the [ip] handler *)

(** [c.isspace()] for a character with a code below 256: tab to carriage
    return, the four separators 28-31, the space, the next-line character
    133 and the no-break space 160. *)
Definition isspace (c : ascii) : bool :=
  let n := nat_of_ascii c in
  ((9 <=? n)%nat && (n <=? 13)%nat) || ((28 <=? n)%nat && (n <=? 32)%nat) ||
  (n =? 133)%nat || (n =? 160)%nat.

Fixpoint lstrip (s : string) : string :=
  match s with
  | EmptyString => EmptyString
  | String c s' => if isspace c then lstrip s' else s
  end.

Fixpoint rstrip (s : string) : string :=
  match s with
  | EmptyString => EmptyString
  | String c s' =>
      match rstrip s' with
      | EmptyString => if isspace c then EmptyString else String c EmptyString
      | r => String c r
      end
  end.

(** [s.strip()] *)
Definition strip (s : string) : string := rstrip (lstrip s).

(** A string is true in a condition when it is not empty. *)
Definition nonempty (s : string) : bool :=
  match s with
  | EmptyString => false
  | String _ _ => true
  end.

(** Lines 21-22: the word list, from the lines of the file as the
    iteration over the file yields them. *)
Definition load_word_list (lines : list string) : list string :=
  map strip (filter (fun line => nonempty (strip line) = true) lines).

(** The part of a request the [ip] handler reads: the host of the peer
    ([None] when the request has no client) and the headers, as the list of
    name and value pairs of the connection, names in lower case. *)
Record Request : Type := {
  client_host : option string;
  raw_headers : list (string * string)
}.

(** [request.headers.get(key)]: the value of the first header whose name
    is [key] in lower case. *)
Fixpoint first_header (name : string) (l : list (string * string))
    : option string :=
  match l with
  | [] => None
  | (k, v) :: l' => if String.eqb k name then Some v else first_header name l'
  end.

Definition headers_get (request : Request) (key : string) : option string :=
  first_header (lower key) (raw_headers request).

Definition local_peers : list (option string) :=
  [Some "127.0.0.1"; Some "0.0.0.0"; Some "::1"; Some "localhost"; None].

(** [ip] (lines 178-193): the body of the response. *)
Definition ip (request : Request) : M string :=
  let client_ip := client_host request in
  if bool_decide (client_ip ∈ local_peers) then
    match headers_get request "CF-Connecting-IP" with
    | Some (String _ _ as cf_ip) => ret cf_ip
    | _ =>
        match headers_get request "X-Forwarded-For" with
        | Some (String _ _ as x_forwarded_for) =>
            let* first := getitem (split "," x_forwarded_for) 0 in
            ret (strip first)
        | _ => ret EmptyString
        end
    end
  else ret (default EmptyString client_ip).

(** ** The [random_dog] handler, on what the upstream service answered *)

(** A Python [str] as the sequence of its code points.  A string decoded
    from JSON can hold lone surrogates (55296 to 57343), which cannot be
    encoded as UTF-8. *)
Definition text : Type := list N.

Definition slash : N := 47.

(** [s.split(sep)] for a separator of one character. *)
Fixpoint split_points (sep : N) (s : text) : list text :=
  match s with
  | [] => [[]]
  | c :: s' =>
      if N.eqb c sep then [] :: split_points sep s'
      else match split_points sep s' with
           | seg :: segs => (c :: seg) :: segs
           | [] => [[c]]
           end
  end.

(** [sep.join(l)] for a separator of one character. *)
Fixpoint join_points (sep : N) (l : list text) : text :=
  match l with
  | [] => []
  | x :: l' =>
      match l' with
      | [] => x
      | _ => (x ++ sep :: join_points sep l')%list
      end
  end.

Definition is_surrogate (c : N) : bool := (55296 <=? c)%N && (c <=? 57343)%N.

(** The text can be encoded as UTF-8, which the rendering of a JSON
    response does with every string of its content. *)
Definition encodable (s : text) : bool :=
  forallb (fun c => negb (is_surrogate c)) s.

Definition nonempty_text (s : text) : bool :=
  match s with
  | [] => false
  | _ :: _ => true
  end.

(** The value under ["message"] in the upstream answer: a string, or
    anything else (absent, null, a number, a list, ...), on which [.split]
    raises. *)
Inductive message_value : Type :=
| MessageStr (url : text)
| MessageOther.

(** The outcome of the upstream request: it failed (connection, status or
    decoding error, or an answer that is not a JSON object, on which [.get]
    raises), or it gave a JSON object. *)
Inductive upstream : Type :=
| UpstreamFailed
| UpstreamObject (message : message_value).

Record dog_response : Type := {
  status_code : Z;
  breed : option text;
  url : option text
}.

(** Lines 86-98, the [try] block: [None] when an exception is raised,
    whichever it is.  The 200 response is built, and its body rendered,
    inside the block: a breed or url that cannot be encoded raises there. *)
Definition random_dog_try (answer : upstream) : option (text * text) :=
  match answer with
  | UpstreamFailed => None
  | UpstreamObject MessageOther => None
  | UpstreamObject (MessageStr url) =>
      match split_points slash url !! 4%nat with
      | None => None
      | Some breed =>
          if negb (nonempty_text url) || negb (nonempty_text breed) then None
          else if encodable breed && encodable url then Some (breed, url)
          else None
      end
  end.

(** [random_dog] (lines 82-104). *)
Definition random_dog (answer : upstream) : dog_response :=
  match random_dog_try answer with
  | Some (breed, url) =>
      {| status_code := 200; breed := Some breed; url := Some url |}
  | None => {| status_code := 500; breed := None; url := None |}
  end.

(** ** Functions used to state the further properties *)

(** The indices of [l] that are not in [seen], each once, in the order in
    which they first occur. *)
Fixpoint first_occurrences (seen : gset Z) (l : list Z) : list Z :=
  match l with
  | [] => []
  | i :: l' =>
      if decide (i ∈ seen) then first_occurrences seen l'
      else i :: first_occurrences ({[i]} ∪ seen) l'
  end.

(** The total number of characters of a list of strings. *)
Definition total_length (l : list string) : nat :=
  sum_list_with String.length l.

(** ** Basic facts about the primitives *)

Lemma randbelow_draw (n d : Z) (t : tape) :
  0 < n -> randbelow n (d :: t) = Ok (d mod n) t.
Proof.
  intros Hn. unfold randbelow.
  destruct (Z.leb_spec n 0); [lia | reflexivity].
Qed.

Lemma randbelow_nonpositive (n : Z) (t : tape) :
  n <= 0 -> randbelow n t = Raise (ValueError randbelow_msg) t.
Proof.
  intros Hn. unfold randbelow.
  destruct (Z.leb_spec n 0); [reflexivity | lia].
Qed.

Lemma randbelow_starved (n : Z) : 0 < n -> randbelow n [] = Starved.
Proof.
  intros Hn. unfold randbelow.
  destruct (Z.leb_spec n 0); [lia | reflexivity].
Qed.

Lemma norm_index_in_range {A} (l : list A) (index : Z) :
  0 <= index < len l -> norm_index l index = Some (Z.to_nat index).
Proof.
  intros [H0 H1]. unfold norm_index.
  destruct (Z.ltb_spec index 0); [lia |].
  destruct (Z.leb_spec 0 index); [| lia].
  destruct (Z.ltb_spec index (len l)); [reflexivity | lia].
Qed.

Lemma getitem_in_range {A} (l : list A) (index : Z) (t : tape) :
  0 <= index < len l ->
  exists x, l !! Z.to_nat index = Some x /\ getitem l index t = Ok x t.
Proof.
  intros Hr. unfold getitem. rewrite norm_index_in_range by exact Hr.
  destruct (lookup_lt_is_Some_2 l (Z.to_nat index)) as [x Hx].
  { unfold len in Hr. lia. }
  exists x. rewrite Hx. split; reflexivity.
Qed.

Lemma setitem_in_range {A} (l : list A) (index : Z) (v : A) (t : tape) :
  0 <= index < len l ->
  setitem l index v t = Ok (<[Z.to_nat index := v]> l) t.
Proof.
  intros Hr. unfold setitem. rewrite norm_index_in_range by exact Hr.
  reflexivity.
Qed.

Lemma mod_in_range (d n : Z) : 0 < n -> 0 <= d mod n < n.
Proof. intros Hn. apply Z.mod_pos_bound. exact Hn. Qed.

(** ** The sampling loop *)

Section Sampling.
Context {A : Type}.
Implicit Types (items sampled xs : list A) (seen : gset Z) (t rest : tape).

Lemma sampled_at_snoc items idxs xs seen index x :
  sampled_at items idxs xs -> seen_is seen idxs ->
  0 <= index -> index ∉ seen -> items !! Z.to_nat index = Some x ->
  sampled_at items (idxs ++ [Z.to_nat index]) (xs ++ [x]) /\
  seen_is ({[index]} ∪ seen) (idxs ++ [Z.to_nat index]).
Proof.
  intros [Hnd Hall] Hseen H0 Hnot Hx. split; [split |].
  - apply NoDup_app. split; [exact Hnd |]. split.
    + intros i Hi Hi'. apply list_elem_of_singleton in Hi'. subst i.
      apply Hnot. apply Hseen. exists (Z.to_nat index). split; [exact Hi | lia].
    + apply NoDup_singleton.
  - apply Forall2_app; [exact Hall |]. constructor; [exact Hx | constructor].
  - intros z. rewrite elem_of_union, elem_of_singleton. split.
    + intros [-> | Hz].
      * exists (Z.to_nat index). split; [| lia].
        apply elem_of_app. right. apply list_elem_of_singleton. reflexivity.
      * apply Hseen in Hz. destruct Hz as (i & Hi & ->).
        exists i. split; [| reflexivity]. apply elem_of_app. left. exact Hi.
    + intros (i & Hi & ->). apply elem_of_app in Hi. destruct Hi as [Hi | Hi].
      * right. apply Hseen. exists i. split; [exact Hi | reflexivity].
      * apply list_elem_of_singleton in Hi. subst i. left. lia.
Qed.

(** One turn of the loop, as an equation. *)
Lemma while_sample_turn fuel items k sampled seen d t :
  len sampled < k -> 0 < len items ->
  while_sample (S fuel) items k sampled seen (d :: t) =
    let index := d mod len items in
    if decide (index ∈ seen) then while_sample fuel items k sampled seen t
    else match items !! Z.to_nat index with
         | Some x =>
             while_sample fuel items k (sampled ++ [x]) ({[index]} ∪ seen) t
         | None => Raise (IndexError "list index out of range") t
         end.
Proof.
  intros Hlt Hpos. cbn [while_sample].
  destruct (Z.ltb_spec (len sampled) k); [| lia].
  unfold bind at 1. rewrite randbelow_draw by exact Hpos. cbv zeta.
  destruct (decide (d mod len items ∈ seen)); [reflexivity |].
  unfold bind, getitem.
  rewrite norm_index_in_range by (apply mod_in_range; exact Hpos).
  destruct (items !! Z.to_nat (d mod len items)); reflexivity.
Qed.

Lemma while_sample_done fuel items k sampled seen t :
  k <= len sampled -> while_sample fuel items k sampled seen t = Ok sampled t.
Proof.
  intros Hge. destruct fuel; cbn [while_sample];
    (destruct (Z.ltb_spec (len sampled) k); [lia | reflexivity]).
Qed.

(** Whatever the loop returns was read at distinct positions, and has
    exactly [k] elements when it started with at most [k]. *)
Lemma while_sample_returns fuel items k :
  forall sampled seen idxs t xs rest,
    sampled_at items idxs sampled -> seen_is seen idxs ->
    len sampled <= k ->
    while_sample fuel items k sampled seen t = Ok xs rest ->
    len xs = k /\ exists idxs', sampled_at items idxs' xs.
Proof.
  induction fuel as [| fuel IH]; intros sampled seen idxs t xs rest Hat Hseen Hle Hrun.
  - cbn [while_sample] in Hrun.
    destruct (Z.ltb_spec (len sampled) k); [discriminate |].
    injection Hrun as <- <-. split; [lia | exists idxs; exact Hat].
  - destruct (Z.lt_ge_cases (len sampled) k) as [Hlt | Hge].
    + destruct (Z.le_gt_cases (len items) 0) as [Hemp | Hpos].
      { cbn [while_sample] in Hrun.
        destruct (Z.ltb_spec (len sampled) k); [| lia].
        unfold bind in Hrun. rewrite randbelow_nonpositive in Hrun by exact Hemp.
        discriminate. }
      destruct t as [| d t].
      { cbn [while_sample] in Hrun.
        destruct (Z.ltb_spec (len sampled) k); [| lia].
        unfold bind in Hrun. rewrite randbelow_starved in Hrun by exact Hpos.
        discriminate. }
      rewrite while_sample_turn in Hrun by assumption. cbv zeta in Hrun.
      pose proof (mod_in_range d (len items) Hpos) as Hr.
      destruct (decide (d mod len items ∈ seen)) as [Hin | Hnot].
      * eapply IH; eassumption.
      * destruct (items !! Z.to_nat (d mod len items)) as [x |] eqn:Hx;
          [| discriminate].
        destruct (sampled_at_snoc items idxs sampled seen _ x Hat Hseen
                    (proj1 Hr) Hnot Hx) as [Hat' Hseen'].
        eapply IH; [exact Hat' | exact Hseen' | | exact Hrun].
        unfold len in *. rewrite length_app. simpl. lia.
    + rewrite while_sample_done in Hrun by lia.
      injection Hrun as <- <-. split; [lia | exists idxs; exact Hat].
Qed.

(** The loop raises nothing when the request does not exceed the
    population. *)
Lemma while_sample_no_raise fuel items k :
  k <= len items ->
  forall sampled seen t e rest,
    while_sample fuel items k sampled seen t <> Raise e rest.
Proof.
  intros Hk. induction fuel as [| fuel IH]; intros sampled seen t e rest.
  - cbn [while_sample]. destruct (len sampled <? k); discriminate.
  - destruct (Z.lt_ge_cases (len sampled) k) as [Hlt | Hge].
    + assert (0 < len items) as Hpos by (unfold len in *; lia).
      destruct t as [| d t].
      { cbn [while_sample]. destruct (Z.ltb_spec (len sampled) k); [| lia].
        unfold bind. rewrite randbelow_starved by exact Hpos. discriminate. }
      rewrite while_sample_turn by assumption. cbv zeta.
      destruct (decide (d mod len items ∈ seen)); [apply IH |].
      destruct (getitem_in_range items (d mod len items) t
                  (mod_in_range d _ Hpos)) as (x & Hx & _).
      rewrite Hx. apply IH.
    + rewrite while_sample_done by lia. discriminate.
Qed.

(** The fuel does not matter once it exceeds the length of the tape. *)
Lemma while_sample_fuel items k :
  forall fuel fuel' sampled seen t,
    (length t < fuel)%nat -> (length t < fuel')%nat ->
    while_sample fuel items k sampled seen t =
    while_sample fuel' items k sampled seen t.
Proof.
  induction fuel as [| fuel IH]; intros fuel' sampled seen t Hf Hf'; [lia |].
  destruct fuel' as [| fuel']; [lia |].
  cbn [while_sample]. destruct (len sampled <? k); [| reflexivity].
  unfold bind at 1 3. unfold randbelow.
  destruct (len items <=? 0); [reflexivity |].
  destruct t as [| d t]; [reflexivity |]. simpl in Hf, Hf'.
  destruct (decide (d mod len items ∈ seen)); [apply IH; lia |].
  unfold bind, getitem.
  destruct (norm_index items (d mod len items)) as [i |]; [| reflexivity].
  destruct (items !! i); [| reflexivity].
  unfold ret. apply IH; lia.
Qed.

(** Drawing the positions [i, i+1, ..., i+n-1] in this order extends a
    sample of the first [i] items to the first [i+n] items, and leaves
    the draws that follow on the tape. *)
Lemma while_sample_first items (extra : tape) :
  forall n i fuel seen,
    (i + n <= length items)%nat -> (n < fuel)%nat ->
    (forall z, z ∈ seen -> z < Z.of_nat i) ->
    while_sample fuel items (Z.of_nat (i + n)) (take i items) seen
      (map Z.of_nat (seq i n) ++ extra)%list = Ok (take (i + n) items) extra.
Proof.
  induction n as [| n IH]; intros i fuel seen Hlen Hfuel Hseen.
  - rewrite Nat.add_0_r. apply while_sample_done.
    unfold len. rewrite length_take. lia.
  - destruct fuel as [| fuel]; [lia |].
    cbn [seq map app].
    assert (len (take i items) = Z.of_nat i) as Hl
      by (unfold len; rewrite length_take; lia).
    rewrite while_sample_turn by (unfold len in *; lia). cbv zeta.
    assert (Z.of_nat i mod len items = Z.of_nat i) as ->
      by (apply Z.mod_small; unfold len; lia).
    destruct (decide (Z.of_nat i ∈ seen)) as [Hin | Hnot].
    { apply Hseen in Hin. lia. }
    rewrite Nat2Z.id.
    destruct (lookup_lt_is_Some_2 items i) as [x Hx]; [lia |].
    rewrite Hx. rewrite <- (take_S_r items i x Hx).
    replace (i + S n)%nat with (S i + n)%nat by lia.
    apply IH; [lia | lia |].
    intros z Hz. apply elem_of_union in Hz. destruct Hz as [Hz | Hz].
    + apply elem_of_singleton in Hz. lia.
    + apply Hseen in Hz. lia.
Qed.
Lemma union_seen_drawn (seen drawn : gset Z) (index : Z) :
  index ∈ seen -> seen ∪ ({[index]} ∪ drawn) = seen ∪ drawn.
Proof.
  intros Hin. apply set_eq. intros z.
  rewrite !elem_of_union, elem_of_singleton. split.
  - intros [Hz | [-> | Hz]]; [left | left | right]; assumption.
  - intros [Hz | Hz]; [left | right; right]; assumption.
Qed.

Lemma union_fresh_drawn (seen drawn : gset Z) (index : Z) :
  seen ∪ ({[index]} ∪ drawn) = {[index]} ∪ seen ∪ drawn.
Proof.
  apply set_eq. intros z. rewrite !elem_of_union, elem_of_singleton. tauto.
Qed.

(** The loop returns as soon as the draws, together with the indices
    already seen, make up [k] different indices. *)
Lemma while_sample_enough items k :
  k <= len items ->
  forall t fuel sampled seen,
    (length t < fuel)%nat ->
    len sampled = Z.of_nat (size seen) ->
    k <= Z.of_nat (size (seen ∪ drawn_indices (len items) t)) ->
    exists xs rest, while_sample fuel items k sampled seen t = Ok xs rest.
Proof.
  intros Hk. induction t as [| d t IH]; intros fuel sampled seen Hfuel Hsize Hdrawn.
  - unfold drawn_indices in Hdrawn. simpl in Hdrawn.
    rewrite union_empty_r_L in Hdrawn.
    exists sampled, []. apply while_sample_done. lia.
  - destruct (Z.lt_ge_cases (len sampled) k) as [Hlt | Hge];
      [| exists sampled, (d :: t); apply while_sample_done; lia].
    assert (0 < len items) as Hpos by (unfold len in *; lia).
    destruct fuel as [| fuel]; [simpl in Hfuel; lia |]. simpl in Hfuel.
    rewrite while_sample_turn by assumption. cbv zeta.
    unfold drawn_indices in Hdrawn. simpl in Hdrawn.
    fold (drawn_indices (len items) t) in Hdrawn.
    destruct (decide (d mod len items ∈ seen)) as [Hin | Hnot].
    + apply IH; [lia | exact Hsize |].
      rewrite <- (union_seen_drawn seen _ _ Hin). exact Hdrawn.
    + destruct (getitem_in_range items (d mod len items) t
                  (mod_in_range d _ Hpos)) as (x & Hx & _).
      rewrite Hx. apply IH; [lia | |].
      * rewrite size_union by set_solver. rewrite size_singleton.
        unfold len in *. rewrite length_app. simpl. lia.
      * rewrite <- union_fresh_drawn. exact Hdrawn.
Qed.
End Sampling.

(** Values read at distinct positions of a duplicate-free list are
    distinct. *)
Lemma sampled_at_NoDup {A} (items : list A) idxs xs :
  NoDup items -> sampled_at items idxs xs -> NoDup xs.
Proof.
  intros Hitems [Hnd Hall]. induction Hall as [| i x idxs xs Hx Hall IH].
  - constructor.
  - apply NoDup_cons in Hnd. destruct Hnd as [Hi Hnd].
    apply NoDup_cons. split; [| apply IH; exact Hnd].
    intros Hin. apply list_elem_of_lookup in Hin. destruct Hin as [p Hp].
    destruct (Forall2_lookup_r _ _ _ _ _ Hall Hp) as (j & Hj & Hjx).
    assert (i = j) as -> by exact (NoDup_lookup items i j x Hitems Hx Hjx).
    apply Hi. eapply list_elem_of_lookup_2. exact Hj.
Qed.

Lemma sampled_at_elem_of {A} (items : list A) idxs xs x :
  sampled_at items idxs xs -> x ∈ xs -> x ∈ items.
Proof.
  intros [_ Hall] Hin. apply list_elem_of_lookup in Hin. destruct Hin as [p Hp].
  destruct (Forall2_lookup_r _ _ _ _ _ Hall Hp) as (j & _ & Hjx).
  eapply list_elem_of_lookup_2. exact Hjx.
Qed.

Lemma secure_sample_in_bounds {A} (items : list A) (k : Z) (t : tape) :
  k <= len items ->
  _secure_sample items k t = while_sample (S (length t)) items k [] ∅ t.
Proof.
  intros Hk. unfold _secure_sample.
  destruct (Z.gtb_spec k (len items)); [lia | reflexivity].
Qed.

Lemma secure_sample_Ok_inv {A} (items : list A) (k : Z) t xs rest :
  0 <= k -> _secure_sample items k t = Ok xs rest ->
  len xs = k /\ exists idxs, sampled_at items idxs xs.
Proof.
  intros Hk Hrun. unfold _secure_sample in Hrun.
  destruct (Z.gtb_spec k (len items)); [discriminate |].
  eapply (while_sample_returns _ items k [] ∅ []); [| | | exact Hrun].
  - split; [apply NoDup_nil_2 | constructor].
  - intros z. split.
    + intros Hz. apply not_elem_of_empty in Hz. contradiction.
    + intros (i & Hi & _). apply not_elem_of_nil in Hi. contradiction.
  - unfold len. simpl. lia.
Qed.

(** On the draws [0, 1, ..., k-1] the sample is the first [k] items. *)
Lemma secure_sample_first {A} (items : list A) (k : Z) (extra : tape) :
  0 <= k <= len items ->
  _secure_sample items k (map Z.of_nat (seq 0 (Z.to_nat k)) ++ extra)%list
    = Ok (take (Z.to_nat k) items) extra.
Proof.
  intros [Hk0 Hk]. rewrite secure_sample_in_bounds by exact Hk.
  pose proof (while_sample_first items extra (Z.to_nat k) 0
                (S (length (map Z.of_nat (seq 0 (Z.to_nat k)) ++ extra)%list)) ∅) as H.
  simpl in H. rewrite Z2Nat.id in H by exact Hk0. apply H.
  - unfold len in Hk. lia.
  - rewrite length_app, length_map, length_seq. lia.
  - intros z Hz. apply not_elem_of_empty in Hz. contradiction.
Qed.

(** ** Inversion of the monadic steps *)

Lemma bind_Ok_inv {A B} (c : M A) (k : A -> M B) t b rest :
  bind c k t = Ok b rest ->
  exists a t', c t = Ok a t' /\ k a t' = Ok b rest.
Proof.
  unfold bind. destruct (c t) as [a t' | |]; try discriminate.
  intros H. exists a, t'. split; [reflexivity | exact H].
Qed.

Lemma bind_ext_on {A B} (c : M A) (k1 k2 : A -> M B) (t : tape) :
  (forall a t', c t = Ok a t' -> k1 a t' = k2 a t') ->
  bind c k1 t = bind c k2 t.
Proof.
  intros H. unfold bind. destruct (c t) as [a t' | |]; [| reflexivity | reflexivity].
  apply H. reflexivity.
Qed.

Lemma ret_Ok_inv {A} (a b : A) t rest : ret a t = Ok b rest -> b = a /\ rest = t.
Proof. unfold ret. intros H. injection H as <- <-. split; reflexivity. Qed.

Lemma getitem_Ok_inv {A} (l : list A) index t x rest :
  getitem l index t = Ok x rest ->
  rest = t /\ exists n, norm_index l index = Some n /\ l !! n = Some x.
Proof.
  unfold getitem. destruct (norm_index l index) as [n |]; [| discriminate].
  destruct (l !! n) as [y |] eqn:Hy; [| discriminate].
  intros H. apply ret_Ok_inv in H. destruct H as [-> ->].
  split; [reflexivity |]. exists n. split; [reflexivity | exact Hy].
Qed.

Lemma setitem_Ok_inv {A} (l : list A) index v t l' rest :
  setitem l index v t = Ok l' rest ->
  rest = t /\ exists n, norm_index l index = Some n /\ l' = <[n := v]> l.
Proof.
  unfold setitem. destruct (norm_index l index) as [n |]; [| discriminate].
  intros H. apply ret_Ok_inv in H. destruct H as [-> ->].
  split; [reflexivity |]. exists n. split; reflexivity.
Qed.

Lemma randbelow_Ok_inv n t r rest :
  randbelow n t = Ok r rest -> 0 < n /\ exists d, t = d :: rest /\ r = d mod n.
Proof.
  unfold randbelow. destruct (Z.leb_spec n 0) as [Hn | Hn]; [discriminate |].
  destruct t as [| d t']; [discriminate |].
  intros Hr. injection Hr as <- <-. split; [lia |]. exists d. split; reflexivity.
Qed.

Lemma secure_randint_Ok_inv lo hi t r rest :
  _secure_randint lo hi t = Ok r rest ->
  lo <= r <= hi /\ exists d, t = d :: rest.
Proof.
  unfold _secure_randint. intros H.
  apply bind_Ok_inv in H. destruct H as (off & t' & Hoff & Hret).
  apply ret_Ok_inv in Hret. destruct Hret as [-> ->].
  apply randbelow_Ok_inv in Hoff. destruct Hoff as (Hn & d & -> & ->).
  pose proof (mod_in_range d _ Hn). split; [lia |]. exists d. reflexivity.
Qed.

Lemma secure_choice_Ok_inv {A} (items : list A) t x rest :
  _secure_choice items t = Ok x rest -> x ∈ items.
Proof.
  unfold _secure_choice. intros H.
  apply bind_Ok_inv in H. destruct H as (index & t' & _ & Hget).
  apply getitem_Ok_inv in Hget. destruct Hget as (_ & n & _ & Hn).
  eapply list_elem_of_lookup_2. exact Hn.
Qed.

(** What each step of the handler does to the list of words. *)
Lemma case_step_Ok_inv case chosen_words t ws rest :
  case_step case chosen_words t = Ok ws rest ->
  length ws = length chosen_words /\ rest = t.
Proof.
  unfold case_step.
  destruct (String.eqb case "lower").
  { intros H. apply ret_Ok_inv in H. destruct H as [-> ->].
    rewrite length_map. split; reflexivity. }
  destruct (String.eqb case "upper").
  { intros H. apply ret_Ok_inv in H. destruct H as [-> ->].
    rewrite length_map. split; reflexivity. }
  destruct (String.eqb case "title").
  { intros H. apply ret_Ok_inv in H. destruct H as [-> ->].
    rewrite length_map. split; reflexivity. }
  destruct (String.eqb case "camel").
  { cbv zeta. intros H. apply bind_Ok_inv in H. destruct H as (w & t' & Hget & Hset).
    apply getitem_Ok_inv in Hget. destruct Hget as [-> _].
    apply setitem_Ok_inv in Hset. destruct Hset as (-> & n & _ & ->).
    rewrite length_insert, length_map. split; reflexivity. }
  intros H. apply ret_Ok_inv in H. destruct H as [-> ->]. split; reflexivity.
Qed.

Lemma numbers_step_Ok_inv chosen_words t ws rest :
  numbers_step chosen_words t = Ok ws rest ->
  exists n word digit,
    chosen_words !! n = Some word /\ 0 <= digit <= 9 /\
    ws = <[n := word +:+ str digit]> chosen_words.
Proof.
  unfold numbers_step. intros H.
  apply bind_Ok_inv in H. destruct H as (index & t1 & _ & H).
  apply bind_Ok_inv in H. destruct H as (word & t2 & Hget & H).
  apply bind_Ok_inv in H. destruct H as (digit & t3 & Hdigit & Hset).
  apply getitem_Ok_inv in Hget. destruct Hget as (-> & n & Hn & Hword).
  apply secure_randint_Ok_inv in Hdigit. destruct Hdigit as [Hd _].
  apply setitem_Ok_inv in Hset. destruct Hset as (_ & n' & Hn' & ->).
  rewrite Hn in Hn'. injection Hn' as <-.
  exists n, word, digit. repeat split; [exact Hword | lia | lia].
Qed.

Lemma symbols_step_Ok_inv separator chosen_words t ws rest :
  symbols_step separator chosen_words t = Ok ws rest ->
  exists n word symbol,
    chosen_words !! n = Some word /\
    symbol ∈ chars (symbol_candidates separator) /\
    ws = <[n := word +:+ symbol]> chosen_words.
Proof.
  unfold symbols_step. intros H.
  apply bind_Ok_inv in H. destruct H as (index & t1 & _ & H). cbv zeta in H.
  apply bind_Ok_inv in H. destruct H as (word & t2 & Hget & H).
  apply bind_Ok_inv in H. destruct H as (symbol & t3 & Hsym & Hset).
  apply getitem_Ok_inv in Hget. destruct Hget as (-> & n & Hn & Hword).
  apply secure_choice_Ok_inv in Hsym.
  apply setitem_Ok_inv in Hset. destruct Hset as (_ & n' & Hn' & ->).
  rewrite Hn in Hn'. injection Hn' as <-.
  exists n, word, symbol. repeat split; [exact Hword | exact Hsym].
Qed.

Lemma passphrase_words_length wl words numbers symbols separator case t ws rest :
  0 <= words ->
  passphrase_words wl words numbers symbols separator case t = Ok ws rest ->
  len ws = words.
Proof.
  intros Hw H. unfold passphrase_words in H.
  apply bind_Ok_inv in H. destruct H as (ws0 & t0 & Hsample & H).
  apply bind_Ok_inv in H. destruct H as (ws1 & t1 & Hcase & H).
  apply bind_Ok_inv in H. destruct H as (ws2 & t2 & Hnum & Hsym).
  assert (len ws0 = words) as Hl0
    by exact (proj1 (secure_sample_Ok_inv wl words t ws0 t0 Hw Hsample)).
  apply case_step_Ok_inv in Hcase. destruct Hcase as [Hl1 _].
  assert (length ws2 = length ws1) as Hl2.
  { destruct numbers.
    - apply numbers_step_Ok_inv in Hnum. destruct Hnum as (n & w & d & _ & _ & ->).
      apply length_insert.
    - apply ret_Ok_inv in Hnum. destruct Hnum as [-> _]. reflexivity. }
  assert (length ws = length ws2) as Hl3.
  { destruct symbols.
    - apply symbols_step_Ok_inv in Hsym. destruct Hsym as (n & w & s & _ & _ & ->).
      apply length_insert.
    - apply ret_Ok_inv in Hsym. destruct Hsym as [-> _]. reflexivity. }
  unfold len in *. lia.
Qed.


(** ** The substring filter of the symbol step *)

Lemma prefix_length (a b : string) :
  String.prefix a b = true -> (String.length a <= String.length b)%nat.
Proof.
  revert b. induction a as [| c a IH]; intros b H; simpl; [lia |].
  destruct b as [| c' b]; simpl in H; [discriminate |].
  destruct (ascii_dec c c'); [| discriminate].
  apply IH in H. simpl. lia.
Qed.

Lemma contains_substring (sub s : string) :
  contains sub s = true ->
  (String.length sub <= String.length s)%nat /\
  exists i, (i <= String.length s)%nat /\ substring i (String.length sub) s = sub.
Proof.
  induction s as [| c s IH]; intros H.
  - simpl in H. rewrite orb_false_r in H. split; [apply prefix_length; exact H |].
    exists 0%nat. split; [lia |]. apply prefix_correct. exact H.
  - cbn [contains] in H. apply orb_true_iff in H. destruct H as [H | H].
    + split; [apply prefix_length; exact H |].
      exists 0%nat. split; [lia |]. apply prefix_correct. exact H.
    + apply IH in H. destruct H as (Hl & i & Hi & Hsub).
      split; [simpl; lia |]. exists (S i). split; [simpl; lia | exact Hsub].
Qed.

Lemma contains_substrings (sub s : string) :
  contains sub s = true -> sub ∈ substrings s.
Proof.
  intros H. apply contains_substring in H. destruct H as (Hl & i & Hi & Hsub).
  apply list_elem_of_In. unfold substrings. apply in_flat_map.
  exists i. split; [apply in_seq; lia |].
  apply in_map_iff. exists (String.length sub). split; [exact Hsub |].
  apply in_seq. lia.
Qed.

(** ** The handler never raises on a valid query, and returns *)

Lemma bind_not_raised {A B} (c : M A) (k : A -> M B) (t : tape) :
  not_raised (c t) ->
  (forall a t', c t = Ok a t' -> not_raised (k a t')) ->
  not_raised (bind c k t).
Proof.
  unfold bind. intros Hc Hk. destruct (c t) as [a t' | e t' |].
  - apply Hk. reflexivity.
  - exact Hc.
  - exact I.
Qed.

Lemma secure_randint_total (lo hi : Z) :
  lo <= hi ->
  _secure_randint lo hi [] = Starved /\
  forall d t, exists r, lo <= r <= hi /\ _secure_randint lo hi (d :: t) = Ok r t.
Proof.
  intros Hle. unfold _secure_randint, bind. split.
  - rewrite randbelow_starved by lia. reflexivity.
  - intros d t. rewrite randbelow_draw by lia.
    exists (lo + d mod (hi - lo + 1)). split; [| reflexivity].
    pose proof (mod_in_range d (hi - lo + 1)). lia.
Qed.

Lemma secure_choice_total {A} (items : list A) :
  items <> [] ->
  _secure_choice items [] = Starved /\
  forall d t, exists x, x ∈ items /\ _secure_choice items (d :: t) = Ok x t.
Proof.
  intros Hne.
  assert (0 < len items) as Hpos.
  { destruct items; [contradiction | unfold len; simpl; lia]. }
  unfold _secure_choice, bind. split.
  - rewrite randbelow_starved by exact Hpos. reflexivity.
  - intros d t. rewrite randbelow_draw by exact Hpos.
    destruct (getitem_in_range items (d mod len items) t
                (mod_in_range d _ Hpos)) as (x & Hx & Hget).
    exists x. split; [| exact Hget]. eapply list_elem_of_lookup_2. exact Hx.
Qed.

Lemma len_positive {A} (l : list A) : l <> [] -> 0 < len l.
Proof. destruct l; [contradiction | unfold len; simpl; lia]. Qed.

Lemma case_step_total (case : string) (chosen_words : list string) (t : tape) :
  chosen_words <> [] ->
  exists ws, case_step case chosen_words t = Ok ws t /\
             length ws = length chosen_words.
Proof.
  intros Hne. unfold case_step.
  destruct (String.eqb case "lower").
  { eexists. split; [reflexivity | apply length_map]. }
  destruct (String.eqb case "upper").
  { eexists. split; [reflexivity | apply length_map]. }
  destruct (String.eqb case "title").
  { eexists. split; [reflexivity | apply length_map]. }
  destruct (String.eqb case "camel"); [| exists chosen_words; split; reflexivity].
  cbv zeta. unfold bind.
  assert (0 <= 0 < len (map title chosen_words)) as Hr.
  { unfold len. rewrite length_map. pose proof (len_positive _ Hne). unfold len in *. lia. }
  destruct (getitem_in_range _ 0 t Hr) as (w & _ & ->).
  rewrite setitem_in_range by exact Hr.
  eexists. split; [reflexivity |]. rewrite length_insert. apply length_map.
Qed.

Lemma numbers_step_total (chosen_words : list string) (t : tape) :
  chosen_words <> [] ->
  match t with
  | d1 :: d2 :: t' =>
      exists ws, numbers_step chosen_words t = Ok ws t' /\
                 length ws = length chosen_words
  | _ => numbers_step chosen_words t = Starved
  end.
Proof.
  intros Hne. pose proof (len_positive _ Hne) as Hpos.
  destruct (secure_randint_total 0 (len chosen_words - 1)) as [Hi0 Hi]; [lia |].
  destruct (secure_randint_total 0 9) as [Hd0 Hd]; [lia |].
  unfold numbers_step.
  destruct t as [| d1 t1]; [unfold bind; rewrite Hi0; reflexivity |].
  destruct (Hi d1 t1) as (index & Hindex & Hrun).
  assert (0 <= index < len chosen_words) as Hr by lia.
  destruct (getitem_in_range chosen_words index t1 Hr) as (word & _ & Hget).
  destruct t1 as [| d2 t'].
  - unfold bind at 1. rewrite Hrun. unfold bind at 1. rewrite Hget.
    unfold bind. rewrite Hd0. reflexivity.
  - destruct (Hd d2 t') as (digit & _ & Hdigit).
    unfold bind at 1. rewrite Hrun. unfold bind at 1. rewrite Hget.
    unfold bind. rewrite Hdigit. rewrite setitem_in_range by exact Hr.
    eexists. split; [reflexivity | apply length_insert].
Qed.

Lemma symbols_step_total (separator : string) (chosen_words : list string)
    (t : tape) :
  chosen_words <> [] -> symbol_candidates separator <> EmptyString ->
  match t with
  | d1 :: d2 :: t' =>
      exists ws, symbols_step separator chosen_words t = Ok ws t' /\
                 length ws = length chosen_words
  | _ => symbols_step separator chosen_words t = Starved
  end.
Proof.
  intros Hne Hcand. pose proof (len_positive _ Hne) as Hpos.
  destruct (secure_randint_total 0 (len chosen_words - 1)) as [Hi0 Hi]; [lia |].
  destruct (secure_choice_total (chars (symbol_candidates separator)))
    as [Hc0 Hc].
  { destruct (symbol_candidates separator); [contradiction | discriminate]. }
  unfold symbols_step.
  destruct t as [| d1 t1]; [unfold bind; rewrite Hi0; reflexivity |].
  destruct (Hi d1 t1) as (index & Hindex & Hrun).
  assert (0 <= index < len chosen_words) as Hr by lia.
  destruct (getitem_in_range chosen_words index t1 Hr) as (word & _ & Hget).
  destruct t1 as [| d2 t'].
  - unfold bind at 1. rewrite Hrun. cbv zeta. unfold bind at 1. rewrite Hget.
    unfold bind. rewrite Hc0. reflexivity.
  - destruct (Hc d2 t') as (symbol & _ & Hsymbol).
    unfold bind at 1. rewrite Hrun. cbv zeta. unfold bind at 1. rewrite Hget.
    unfold bind. rewrite Hsymbol. rewrite setitem_in_range by exact Hr.
    eexists. split; [reflexivity | apply length_insert].
Qed.

Lemma short_separator_candidates (separator : string) :
  (String.length separator <= 3)%nat -> symbol_candidates separator <> EmptyString.
Proof.
  intros Hlen. destruct (contains separator "!@#$%&") eqn:Hc.
  - apply contains_substrings in Hc. revert separator Hc Hlen.
    apply (proj1 (Forall_forall
             (fun s => (String.length s <= 3)%nat -> symbol_candidates s <> EmptyString)
             (substrings "!@#$%&"))).
    compute_done.
  - unfold symbol_candidates. rewrite Hc. discriminate.
Qed.

Lemma passphrase_words_total (wl : list string) (words : Z)
    (numbers symbols : bool) (separator case : string) :
  1 <= words <= len wl -> (String.length separator <= 3)%nat ->
  (forall t, not_raised
               (passphrase_words wl words numbers symbols separator case t)) /\
  (exists ws,
      passphrase_words wl words numbers symbols separator case
        (first_words_tape words numbers symbols) = Ok ws []).
Proof.
  intros [Hw1 Hw] Hsep.
  pose proof (short_separator_candidates separator Hsep) as Hcand.
  assert (forall (l : list string) n, length l = n -> (0 < n)%nat -> l <> [])
    as Hnonempty by (intros l n <- Hn ->; simpl in Hn; lia).
  split.
  - intros t. unfold passphrase_words.
    apply bind_not_raised.
    { destruct (_secure_sample wl words t) as [| e r |] eqn:Hs; try exact I.
      rewrite secure_sample_in_bounds in Hs by exact Hw.
      exact (while_sample_no_raise _ wl words Hw _ _ _ _ _ Hs). }
    intros ws0 t0 Hs.
    assert (len ws0 = words) as Hl0
      by (apply (secure_sample_Ok_inv wl words t ws0 t0); [lia | exact Hs]).
    assert (ws0 <> []) as Hne0.
    { apply (Hnonempty _ (length ws0) eq_refl). unfold len in Hl0. lia. }
    destruct (case_step_total case ws0 t0 Hne0) as (ws1 & Hcase & Hl1).
    unfold bind at 1. rewrite Hcase.
    assert (ws1 <> []) as Hne1.
    { apply (Hnonempty _ (length ws1) eq_refl). unfold len in Hl0. lia. }
    apply bind_not_raised.
    { destruct numbers; [| exact I].
      pose proof (numbers_step_total ws1 t0 Hne1) as Hn.
      destruct t0 as [| d1 [| d2 t']].
      - rewrite Hn. exact I.
      - rewrite Hn. exact I.
      - destruct Hn as (ws2 & -> & _). exact I. }
    intros ws2 t2 Hnum.
    assert (ws2 <> []) as Hne2.
    { destruct numbers.
      - apply numbers_step_Ok_inv in Hnum. destruct Hnum as (n & w & d & _ & _ & ->).
        apply (Hnonempty _ (length ws1)); [apply length_insert |].
        unfold len in Hl0. lia.
      - apply ret_Ok_inv in Hnum. destruct Hnum as [-> _]. exact Hne1. }
    destruct symbols; [| exact I].
    pose proof (symbols_step_total separator ws2 t2 Hne2 Hcand) as Hn.
    destruct t2 as [| d1 [| d2 t']].
    + rewrite Hn. exact I.
    + rewrite Hn. exact I.
    + destruct Hn as (ws3 & -> & _). exact I.
  - unfold passphrase_words, first_words_tape.
    unfold bind at 1. rewrite secure_sample_first by lia.
    assert (take (Z.to_nat words) wl <> []) as Hne0.
    { apply (Hnonempty _ (Z.to_nat words)); [| lia].
      rewrite length_take. unfold len in Hw. lia. }
    unfold bind at 1.
    match goal with
    | |- context [case_step case ?l ?t] =>
        destruct (case_step_total case l t Hne0) as (ws1 & Hcase & Hl1)
    end.
    rewrite Hcase.
    assert (ws1 <> []) as Hne1.
    { intros ->. destruct (take (Z.to_nat words) wl); [contradiction | discriminate]. }
    assert (exists ws2,
               (if numbers then numbers_step ws1 else ret ws1)
                 ((if numbers then [0; 0] else []) ++
                  (if symbols then [0; 0] else []))%list
               = Ok ws2 (if symbols then [0; 0] else []) /\ ws2 <> [])
      as (ws2 & Hnum & Hne2).
    { destruct numbers.
      - pose proof (numbers_step_total ws1
                      ([0; 0] ++ (if symbols then [0; 0] else []))%list Hne1) as Hn.
        simpl in Hn. destruct Hn as (ws2 & Hn & Hl2).
        exists ws2. split; [exact Hn |].
        intros ->. destruct ws1; [contradiction | discriminate].
      - exists ws1. split; [reflexivity | exact Hne1]. }
    unfold bind. rewrite Hnum.
    destruct symbols; [| exists ws2; reflexivity].
    pose proof (symbols_step_total separator ws2 [0; 0] Hne2 Hcand) as Hn.
    simpl in Hn. destruct Hn as (ws3 & Hn & _). exists ws3. exact Hn.
Qed.

(** ** Splitting the joined words *)

Lemma prefix_append (p s : string) : String.prefix p (p +:+ s) = true.
Proof.
  induction p as [| a p IH]; simpl; [destruct s; reflexivity |].
  destruct (ascii_dec a a); [exact IH | contradiction].
Qed.

Lemma split_scan_skip (sep p s : string) :
  split_scan sep (p +:+ s) (String.length p) = split_scan sep s 0.
Proof. induction p as [| a p IH]; simpl; [reflexivity | exact IH]. Qed.

Lemma split_scan_separator (sep s : string) :
  sep <> EmptyString -> split_scan sep (sep +:+ s) 0 = EmptyString :: split_scan sep s 0.
Proof.
  intros Hne. destruct sep as [| c sep']; [contradiction |].
  change (String c sep' +:+ s) with (String c (sep' +:+ s)).
  cbn [split_scan].
  change (String c (sep' +:+ s)) with (String c sep' +:+ s).
  rewrite prefix_append. f_equal.
  replace (String.length (String c sep') - 1)%nat with (String.length sep')
    by (simpl; lia).
  apply split_scan_skip.
Qed.

Lemma split_scan_word (sep w s : string) :
  separator_head_free sep w -> sep <> EmptyString ->
  split_scan sep (w +:+ sep +:+ s) 0 = w :: split_scan sep s 0 /\
  split_scan sep w 0 = [w].
Proof.
  intros Hfree Hne. destruct sep as [| c sep']; [contradiction |].
  induction w as [| a w IH].
  - split; [exact (split_scan_separator (String c sep') s Hne) | reflexivity].
  - simpl in Hfree. apply not_elem_of_cons in Hfree. destruct Hfree as [Hac Hfree].
    destruct (IH Hfree) as [IH1 IH2].
    assert (forall x, String.prefix (String c sep') (String a x) = false) as Hpre.
    { intros x. simpl. destruct (ascii_dec c a) as [-> |]; [| reflexivity].
      contradiction Hac. reflexivity. }
    split.
    + change (String a w +:+ String c sep' +:+ s)
        with (String a (w +:+ String c sep' +:+ s)).
      cbn [split_scan]. rewrite Hpre, IH1. reflexivity.
    + cbn [split_scan]. rewrite Hpre, IH2. reflexivity.
Qed.

(** Splitting undoes joining when the first character of the separator
    occurs in none of the words. *)
Lemma split_join (sep : string) (ws : list string) :
  sep <> EmptyString -> ws <> [] ->
  (forall w, w ∈ ws -> separator_head_free sep w) ->
  split sep (join sep ws) = ws.
Proof.
  intros Hne Hws Hfree. unfold split, join.
  induction ws as [| w ws IH]; [contradiction |].
  assert (separator_head_free sep w) as Hw by (apply Hfree; apply list_elem_of_here).
  destruct ws as [| w' ws].
  - simpl. apply (split_scan_word sep w EmptyString); assumption.
  - change (String.concat sep (w :: w' :: ws))
      with (w +:+ sep +:+ String.concat sep (w' :: ws)).
    rewrite (proj1 (split_scan_word sep w _ Hw Hne)). f_equal.
    apply IH; [discriminate |].
    intros x Hx. apply Hfree. apply list_elem_of_further. exact Hx.
Qed.

(** ** The order of selection *)

Section SamplingOrder.
Context {A : Type}.
Implicit Types (items sampled xs : list A) (seen : gset Z) (t rest : tape).

(** What the loop returns was obtained from at most as many different
    indices as the tape and the set of seen indices hold. *)
Lemma while_sample_needs items k :
  forall fuel sampled seen t xs rest,
    len sampled = Z.of_nat (size seen) ->
    while_sample fuel items k sampled seen t = Ok xs rest ->
    len xs <= Z.of_nat (size (seen ∪ drawn_indices (len items) t)).
Proof.
  induction fuel as [| fuel IH]; intros sampled seen t xs rest Hsize Hrun.
  - cbn [while_sample] in Hrun.
    destruct (len sampled <? k); [discriminate |].
    injection Hrun as <- <-. rewrite Hsize.
    apply inj_le. apply subseteq_size. apply union_subseteq_l.
  - destruct (Z.lt_ge_cases (len sampled) k) as [Hlt | Hge].
    + destruct (Z.le_gt_cases (len items) 0) as [Hemp | Hpos].
      { cbn [while_sample] in Hrun.
        destruct (Z.ltb_spec (len sampled) k); [| lia].
        unfold bind in Hrun. rewrite randbelow_nonpositive in Hrun by exact Hemp.
        discriminate. }
      destruct t as [| d t].
      { cbn [while_sample] in Hrun.
        destruct (Z.ltb_spec (len sampled) k); [| lia].
        unfold bind in Hrun. rewrite randbelow_starved in Hrun by exact Hpos.
        discriminate. }
      rewrite while_sample_turn in Hrun by assumption. cbv zeta in Hrun.
      unfold drawn_indices. cbn [map list_to_set].
      fold (drawn_indices (len items) t).
      destruct (decide (d mod len items ∈ seen)) as [Hin | Hnot].
      * rewrite (union_seen_drawn seen _ _ Hin). eapply IH; eassumption.
      * destruct (items !! Z.to_nat (d mod len items)) as [x |]; [| discriminate].
        rewrite union_fresh_drawn. eapply IH; [| exact Hrun].
        rewrite size_union by set_solver. rewrite size_singleton.
        unfold len in *. rewrite length_app. simpl. lia.
    + rewrite while_sample_done in Hrun by lia.
      injection Hrun as <- <-. rewrite Hsize.
      apply inj_le. apply subseteq_size. apply union_subseteq_l.
Qed.

(** The loop consumes a prefix of the tape, and what it adds to the sample
    are the items at the indices of that prefix not seen before, in the
    order in which they first occur; it stops at the first draw that
    completes the sample. *)
Lemma while_sample_order items k :
  forall fuel sampled seen t xs rest,
    while_sample fuel items k sampled seen t = Ok xs rest ->
    exists used new,
      t = (used ++ rest)%list /\ xs = (sampled ++ new)%list /\
      Forall2 (fun i x => items !! Z.to_nat i = Some x)
        (first_occurrences seen (map (fun d => d mod len items) used)) new /\
      (forall n, (n < length used)%nat ->
         len sampled +
         len (first_occurrences seen
                (map (fun d => d mod len items) (take n used))) < k).
Proof.
  assert (forall sampled seen t, k <= len sampled ->
            exists used new : list _,
              t = (used ++ t)%list /\ sampled = (sampled ++ new)%list /\
              Forall2 (fun i x => items !! Z.to_nat i = Some x)
                (first_occurrences seen (map (fun d => d mod len items) used)) new /\
              (forall n, (n < length used)%nat ->
                 len sampled +
                 len (first_occurrences seen
                        (map (fun d => d mod len items) (take n used))) < k))
    as Hdone.
  { intros sampled seen t _. exists [], []. split; [reflexivity |].
    split; [rewrite app_nil_r; reflexivity |]. split; [constructor |].
    intros n Hn. simpl in Hn. lia. }
  induction fuel as [| fuel IH]; intros sampled seen t xs rest Hrun.
  - cbn [while_sample] in Hrun.
    destruct (Z.ltb_spec (len sampled) k); [discriminate |].
    injection Hrun as <- <-. apply Hdone. lia.
  - destruct (Z.lt_ge_cases (len sampled) k) as [Hlt | Hge].
    + destruct (Z.le_gt_cases (len items) 0) as [Hemp | Hpos].
      { cbn [while_sample] in Hrun.
        destruct (Z.ltb_spec (len sampled) k); [| lia].
        unfold bind in Hrun. rewrite randbelow_nonpositive in Hrun by exact Hemp.
        discriminate. }
      destruct t as [| d t].
      { cbn [while_sample] in Hrun.
        destruct (Z.ltb_spec (len sampled) k); [| lia].
        unfold bind in Hrun. rewrite randbelow_starved in Hrun by exact Hpos.
        discriminate. }
      rewrite while_sample_turn in Hrun by assumption. cbv zeta in Hrun.
      destruct (decide (d mod len items ∈ seen)) as [Hin | Hnot].
      * destruct (IH _ _ _ _ _ Hrun) as (used & new & -> & -> & Hall & Hmin).
        exists (d :: used), new. split; [reflexivity |]. split; [reflexivity |].
        split.
        { cbn [map first_occurrences].
          destruct (decide (d mod len items ∈ seen)); [exact Hall | contradiction]. }
        intros [| n] Hn.
        { cbn [take map first_occurrences]. unfold len at 2. simpl. lia. }
        cbn [take map first_occurrences].
        destruct (decide (d mod len items ∈ seen)); [| contradiction].
        apply Hmin. simpl in Hn. lia.
      * destruct (items !! Z.to_nat (d mod len items)) as [x |] eqn:Hx;
          [| discriminate].
        destruct (IH _ _ _ _ _ Hrun) as (used & new & -> & -> & Hall & Hmin).
        exists (d :: used), (x :: new). split; [reflexivity |].
        split; [rewrite <- app_assoc; reflexivity |]. split.
        { cbn [map first_occurrences].
          destruct (decide (d mod len items ∈ seen)); [contradiction |].
          constructor; [exact Hx | exact Hall]. }
        intros [| n] Hn.
        { cbn [take map first_occurrences]. unfold len at 2. simpl. lia. }
        cbn [take map first_occurrences].
        destruct (decide (d mod len items ∈ seen)); [contradiction |].
        simpl in Hn. specialize (Hmin n ltac:(lia)).
        unfold len in *. rewrite length_app in Hmin. simpl in *. lia.
    + rewrite while_sample_done in Hrun by lia.
      injection Hrun as <- <-. apply Hdone. lia.
Qed.
End SamplingOrder.

(** ** Words that the case step leaves alone *)




(** ** The claims *)

(** C1 (as the code has it): for [0 <= k <= len items], [_secure_sample
    items k] raises nothing; it returns as soon as the draws contain [k]
    different indices (on the draws [0, 1, ..., k-1] it returns the first
    [k] items); and whatever it returns has exactly [k] elements, read at
    pairwise distinct positions of [items]: they are elements of [items],
    and pairwise distinct as values when [items] has no repeated value.
    They come in the order of selection: the sample has consumed a prefix
    of the draws, it holds the items at the different indices of that
    prefix in the order in which they were first drawn, and no shorter
    prefix holds [k] different indices. *)
Theorem secure_sample_distinct_positions {A} (items : list A) (k : Z) :
  0 <= k <= len items ->
  (forall t, not_raised (_secure_sample items k t)) /\
  (forall t, k <= Z.of_nat (size (drawn_indices (len items) t)) ->
     exists xs rest, _secure_sample items k t = Ok xs rest) /\
  _secure_sample items k (map Z.of_nat (seq 0 (Z.to_nat k)))
    = Ok (take (Z.to_nat k) items) [] /\
  (forall t xs rest,
      _secure_sample items k t = Ok xs rest ->
      len xs = k /\
      (exists idxs : list nat,
          NoDup idxs /\ Forall2 (fun i x => items !! i = Some x) idxs xs) /\
      (NoDup items -> NoDup xs) /\
      (forall x, x ∈ xs -> x ∈ items) /\
      (exists used,
          t = (used ++ rest)%list /\
          Forall2 (fun i x => items !! Z.to_nat i = Some x)
            (first_occurrences ∅ (map (fun d => d mod len items) used)) xs /\
          (forall n, (n < length used)%nat ->
             len (first_occurrences ∅
                    (map (fun d => d mod len items) (take n used))) < k))).
Proof.
  intros [Hk0 Hk]. split; [| split; [| split]].
  - intros t. rewrite secure_sample_in_bounds by exact Hk.
    destruct (while_sample _ items k [] ∅ t) as [| e r |] eqn:Hrun; try exact I.
    exact (while_sample_no_raise _ items k Hk _ _ _ _ _ Hrun).
  - intros t Hdrawn. rewrite secure_sample_in_bounds by exact Hk.
    apply while_sample_enough; [exact Hk | lia | reflexivity |].
    rewrite union_empty_l_L. exact Hdrawn.
  - pose proof (secure_sample_first items k [] (conj Hk0 Hk)) as H.
    rewrite app_nil_r in H. exact H.
  - intros t xs rest Hrun.
    destruct (secure_sample_Ok_inv items k t xs rest Hk0 Hrun) as [Hlen [idxs Hat]].
    split; [exact Hlen |]. split; [exists idxs; exact Hat |].
    split; [| split].
    + intros Hnd. eapply sampled_at_NoDup; eassumption.
    + intros x Hx. eapply sampled_at_elem_of; eassumption.
    + rewrite secure_sample_in_bounds in Hrun by exact Hk.
      apply while_sample_order in Hrun.
      destruct Hrun as (used & new & Ht & Hxs & Hall & Hmin).
      exists used. split; [exact Ht |]. simpl in Hxs. subst xs.
      split; [exact Hall |].
      intros n Hn. specialize (Hmin n Hn).
      unfold len in Hmin at 1. simpl in Hmin. exact Hmin.
Qed.

Lemma secure_sample_distinct_positions_witness :
  0 <= 2 <= len ["a"; "b"; "c"] /\
  _secure_sample ["a"; "b"; "c"] 2 [0; 1] = Ok ["a"; "b"] [].
Proof.
  assert (0 <= 2 <= len ["a"; "b"; "c"]) as H by (unfold len; simpl; lia).
  split; [exact H |].
  exact (proj1 (proj2 (proj2 (secure_sample_distinct_positions ["a"; "b"; "c"] 2 H)))).
Defined.

(** C1 as stated fails on a sequence that repeats a value: the two
    positions drawn are distinct, the two values returned are equal. *)
Lemma secure_sample_repeated_value :
  0 <= 2 <= len ["a"; "a"] /\
  _secure_sample ["a"; "a"] 2 [0; 1] = Ok ["a"; "a"] [] /\
  ~ NoDup ["a"; "a"].
Proof.
  split; [unfold len; simpl; lia |].
  split; [vm_compute; reflexivity |].
  intros Hnd. apply NoDup_cons in Hnd. destruct Hnd as [Hnot _].
  apply Hnot. apply list_elem_of_here.
Qed.




(** C3 (as the code has it): for [1 <= words <= len wl] and a separator of
    one to three characters, [random_passphrase] raises nothing and returns
    (on the draws [first_words_tape], for one); what it returns is the join
    of exactly [words] words (the sampled words after the case, digit and
    symbol steps), and splitting it on the separator gives these [words]
    segments back whenever the first character of the separator occurs in
    none of them. *)
Theorem passphrase_split_word_count (wl : list string) (words : Z)
    (numbers symbols : bool) (separator case : string) :
  1 <= words <= len wl -> separator <> EmptyString ->
  (String.length separator <= 3)%nat ->
  (forall t, not_raised
               (random_passphrase wl words numbers symbols separator case t)) /\
  (exists out,
      random_passphrase wl words numbers symbols separator case
        (first_words_tape words numbers symbols) = Ok out []) /\
  (forall t out rest,
      random_passphrase wl words numbers symbols separator case t = Ok out rest ->
      exists ws,
        passphrase_words wl words numbers symbols separator case t = Ok ws rest /\
        out = join separator ws /\ len ws = words /\
        ((forall w, w ∈ ws -> separator_head_free separator w) ->
           split separator out = ws /\ len (split separator out) = words)).
Proof.
  intros Hw Hsep Hshort.
  destruct (passphrase_words_total wl words numbers symbols separator case
              Hw Hshort) as [Hnoraise [ws0 Hreturns]].
  split; [| split].
  - intros t. unfold random_passphrase. apply bind_not_raised; [apply Hnoraise |].
    intros ws t' _. exact I.
  - exists (join separator ws0). unfold random_passphrase, bind.
    rewrite Hreturns. reflexivity.
  - intros t out rest Hrun. unfold random_passphrase in Hrun.
    apply bind_Ok_inv in Hrun. destruct Hrun as (ws & t' & Hws & Hret).
    apply ret_Ok_inv in Hret. destruct Hret as [-> ->].
    exists ws. split; [exact Hws |]. split; [reflexivity |].
    assert (len ws = words) as Hlen
      by (eapply passphrase_words_length; [| exact Hws]; lia).
    split; [exact Hlen |]. intros Hfree.
    assert (split separator (join separator ws) = ws) as Hsplit.
    { apply split_join; [exact Hsep | | exact Hfree].
      intros ->. unfold len in Hlen. simpl in Hlen. lia. }
    rewrite Hsplit. split; [reflexivity | exact Hlen].
Qed.

Lemma passphrase_split_word_count_witness :
  1 <= 2 <= len ["apple"; "banana"] /\ "-" <> EmptyString /\
  (String.length "-" <= 3)%nat /\
  exists ws,
    passphrase_words ["apple"; "banana"] 2 true true "-" "title" [1; 0; 0; 7; 1; 3]
      = Ok ws [] /\
    len ws = 2 /\
    ((forall w, w ∈ ws -> separator_head_free "-" w) ->
       split "-" "Banana7-Apple$" = ws /\ len (split "-" "Banana7-Apple$") = 2).
Proof.
  assert (1 <= 2 <= len ["apple"; "banana"]) as H1 by (unfold len; simpl; lia).
  assert ("-" <> EmptyString) as H2 by discriminate.
  assert (String.length "-" <= 3)%nat as H3 by (simpl; lia).
  assert (random_passphrase ["apple"; "banana"] 2 true true "-" "title"
            [1; 0; 0; 7; 1; 3] = Ok "Banana7-Apple$" []) as H4
    by (vm_compute; reflexivity).
  split; [exact H1 |]. split; [exact H2 |]. split; [exact H3 |].
  destruct (proj2 (proj2 (passphrase_split_word_count
                            ["apple"; "banana"] 2 true true "-" "title" H1 H2 H3))
              _ _ _ H4)
    as (ws & Hws & _ & Hlen & Hsplit).
  exists ws. split; [exact Hws |]. split; [exact Hlen | exact Hsplit].
Defined.

(** C3 as stated fails when a word contains the separator: two words of
    the word list joined by ["-"] split into four segments. *)
Lemma passphrase_split_hyphenated_words :
  valid_query 2 "-" "lower" = true /\
  random_passphrase ["t-shirt"; "yo-yo"] 2 false false "-" "lower" [0; 1]
    = Ok "t-shirt-yo-yo" [] /\
  split "-" "t-shirt-yo-yo" = ["t"; "shirt"; "yo"; "yo"] /\
  len (split "-" "t-shirt-yo-yo") <> 2.
Proof. repeat split; vm_compute; try reflexivity; discriminate. Qed.

(** C4: for [min_value <= max_value], [_secure_randint] draws below
    [max_value - min_value + 1] and adds the draw to [min_value]; the result
    lies in [[min_value, max_value]], and every value of that range is the
    result for some draw. *)
Theorem secure_randint_range (min_value max_value : Z) :
  min_value <= max_value ->
  (forall t,
      _secure_randint min_value max_value t =
      bind (randbelow (max_value - min_value + 1))
           (fun draw => ret (min_value + draw)) t) /\
  (forall d t, exists r,
      _secure_randint min_value max_value (d :: t) = Ok r t /\
      r = min_value + d mod (max_value - min_value + 1) /\
      min_value <= r <= max_value) /\
  (forall v, min_value <= v <= max_value ->
     exists d, forall t, _secure_randint min_value max_value (d :: t) = Ok v t).
Proof.
  intros Hle. split; [reflexivity |]. split.
  - intros d t. eexists. split; [| split; [reflexivity |]].
    + unfold _secure_randint, bind. rewrite randbelow_draw by lia. reflexivity.
    + pose proof (mod_in_range d (max_value - min_value + 1)). lia.
  - intros v Hv. exists (v - min_value). intros t.
    unfold _secure_randint, bind. rewrite randbelow_draw by lia.
    rewrite Z.mod_small by lia. unfold ret. f_equal. lia.
Qed.

Lemma secure_randint_range_witness :
  1 <= 6 /\ exists r, _secure_randint 1 6 [15] = Ok r [] /\ 1 <= r <= 6.
Proof.
  assert (1 <= 6) as H by lia.
  split; [exact H |].
  destruct (proj1 (proj2 (secure_randint_range 1 6 H)) 15 []) as (r & Hr & _ & Hb).
  exists r. split; [exact Hr | exact Hb].
Defined.

(** C5: a sample size above the population is refused with the
    [ValueError] of line 38 on an untouched tape, and so is a passphrase
    request for more words than the word list has: the result is the
    exception, with no sample and no passphrase in it. *)
Theorem sample_size_exceeds_population {A} (items : list A) (k : Z)
    (wl : list string) (words : Z) (numbers symbols : bool)
    (separator case : string) (t : tape) :
  len items < k -> len wl < words ->
  _secure_sample items k t = Raise (ValueError sample_msg) t /\
  random_passphrase wl words numbers symbols separator case t
    = Raise (ValueError sample_msg) t.
Proof.
  intros Hk Hw.
  assert (forall B (l : list B) n, len l < n ->
            _secure_sample l n t = Raise (ValueError sample_msg) t) as Hraise.
  { intros B l n Hn. unfold _secure_sample.
    destruct (Z.gtb_spec n (len l)); [reflexivity | lia]. }
  split; [apply Hraise; exact Hk |].
  unfold random_passphrase, passphrase_words, bind.
  rewrite (Hraise _ wl words Hw). reflexivity.
Qed.

Lemma sample_size_exceeds_population_witness :
  len [1; 2] < 3 /\ len ["apple"] < 2 /\
  _secure_sample [1; 2] 3 [7; 7] = Raise (ValueError sample_msg) [7; 7] /\
  random_passphrase ["apple"] 2 true true "-" "title" [7; 7]
    = Raise (ValueError sample_msg) [7; 7].
Proof.
  assert (len [1; 2] < 3) as H1 by (unfold len; simpl; lia).
  assert (len ["apple"] < 2) as H2 by (unfold len; simpl; lia).
  split; [exact H1 |]. split; [exact H2 |].
  exact (sample_size_exceeds_population [1; 2] 3 ["apple"] 2 true true
           "-" "title" [7; 7] H1 H2).
Defined.



(** C7: [_secure_choice] on the empty sequence fails, with the
    [ValueError] of [secrets.randbelow(0)] and without drawing; on a
    non-empty sequence every draw makes it return an element of the
    sequence. *)
Theorem secure_choice_spec {A} (items : list A) :
  items <> [] ->
  (forall t, _secure_choice ([] : list A) t = Raise (ValueError randbelow_msg) t) /\
  (forall d t, exists x, x ∈ items /\ _secure_choice items (d :: t) = Ok x t) /\
  (forall t, not_raised (_secure_choice items t)).
Proof.
  intros Hne. destruct (secure_choice_total items Hne) as [Hstarved Hdraw].
  split; [| split].
  - intros t. unfold _secure_choice, bind.
    rewrite randbelow_nonpositive by (unfold len; simpl; lia). reflexivity.
  - exact Hdraw.
  - intros [| d t].
    + rewrite Hstarved. exact I.
    + destruct (Hdraw d t) as (x & _ & ->). exact I.
Qed.

Lemma secure_choice_spec_witness :
  ["x"; "y"; "z"] <> [] /\
  exists x, x ∈ ["x"; "y"; "z"] /\ _secure_choice ["x"; "y"; "z"] [4] = Ok x [].
Proof.
  assert (["x"; "y"; "z"] <> []) as H by discriminate.
  split; [exact H |].
  exact (proj1 (proj2 (secure_choice_spec ["x"; "y"; "z"] H)) 4 []).
Defined.

(** C8: in camel mode with separator ["-"], no digit and no symbol, the
    sampled words apple, banana, cherry give ["apple-Banana-Cherry"]. *)
Theorem camel_literal_example (wl : list string) (t rest : tape) :
  _secure_sample wl 3 t = Ok ["apple"; "banana"; "cherry"] rest ->
  random_passphrase wl 3 false false "-" "camel" t
    = Ok "apple-Banana-Cherry" rest.
Proof.
  intros Hsample. unfold random_passphrase, passphrase_words, bind.
  rewrite Hsample. reflexivity.
Qed.

Lemma camel_literal_example_witness :
  random_passphrase ["cherry"; "apple"; "banana"] 3 false false "-" "camel"
    [1; 2; 1; 0] = Ok "apple-Banana-Cherry" [].
Proof.
  apply (camel_literal_example ["cherry"; "apple"; "banana"] [1; 2; 1; 0] []).
  vm_compute. reflexivity.
Defined.

(** C9: the candidates are filtered by substring containment.  A separator
    that occurs in ["!@#$%&"] as a contiguous substring has every one of
    its characters removed from the candidates; any other separator, such
    as ["!#"], removes nothing, so that ["!"] can be appended although it
    is part of the separator; and a separator of at most three characters
    never empties the candidates. *)
Theorem symbol_filter_is_substring_removal (separator : string) :
  (contains separator "!@#$%&" = true ->
     forall c, c ∈ chars separator -> c ∉ chars (symbol_candidates separator)) /\
  (contains separator "!@#$%&" = false ->
     symbol_candidates separator = "!@#$%&") /\
  (contains "!#" "!@#$%&" = false /\
   forall word t, symbols_step "!#" [word] (0 :: 0 :: t) = Ok [word +:+ "!"] t) /\
  ((String.length separator <= 3)%nat -> symbol_candidates separator <> EmptyString).
Proof.
  split; [| split; [| split]].
  - intros Hin. apply contains_substrings in Hin. apply Forall_forall.
    revert separator Hin.
    apply (proj1 (Forall_forall
             (fun s => Forall (fun c => c ∉ chars (symbol_candidates s)) (chars s))
             (substrings "!@#$%&"))).
    compute_done.
  - intros Hout. unfold symbol_candidates. rewrite Hout. reflexivity.
  - split; [reflexivity |]. intros word t. reflexivity.
  - apply short_separator_candidates.
Qed.

Lemma symbol_filter_is_substring_removal_witness :
  contains "#$" "!@#$%&" = true /\
  (forall c, c ∈ chars "#$" -> c ∉ chars (symbol_candidates "#$")) /\
  symbol_candidates "#$" <> EmptyString.
Proof.
  assert (contains "#$" "!@#$%&" = true) as H by reflexivity.
  assert (String.length "#$" <= 3)%nat as Hl by (simpl; lia).
  split; [exact H |]. split.
  - exact (proj1 (symbol_filter_is_substring_removal "#$") H).
  - exact (proj2 (proj2 (proj2 (symbol_filter_is_substring_removal "#$"))) Hl).
Defined.

(** C10: a count [k <= 0], negative ones included, gives the empty list,
    leaves the tape untouched and raises nothing. *)
Theorem secure_sample_nonpositive {A} (items : list A) (k : Z) (t : tape) :
  k <= 0 -> _secure_sample items k t = Ok [] t.
Proof.
  intros Hk. rewrite secure_sample_in_bounds by (unfold len; lia).
  apply while_sample_done. unfold len. simpl. lia.
Qed.

Lemma secure_sample_nonpositive_witness :
  -3 <= 0 /\ _secure_sample ["a"; "b"] (-3) [5; 7] = Ok [] [5; 7].
Proof.
  assert (-3 <= 0) as H by lia.
  split; [exact H |]. exact (secure_sample_nonpositive ["a"; "b"] (-3) [5; 7] H).
Defined.


(** ** Further properties of the helpers *)

(** X1: [_secure_randint] raises exactly when [max_value < min_value]: the
    [ValueError] of [secrets.randbelow], on an untouched tape. *)
Theorem secure_randint_raises_iff (min_value max_value : Z) (t : tape) :
  (max_value < min_value <->
   _secure_randint min_value max_value t = Raise (ValueError randbelow_msg) t) /\
  (not_raised (_secure_randint min_value max_value t) <->
   min_value <= max_value).
Proof.
  unfold _secure_randint, bind.
  destruct (Z.lt_ge_cases max_value min_value) as [Hlt | Hge].
  - rewrite randbelow_nonpositive by lia. simpl.
    split; [split; [reflexivity | intros _; exact Hlt] | split; [contradiction | lia]].
  - unfold randbelow. destruct (Z.leb_spec (max_value - min_value + 1) 0); [lia |].
    destruct t as [| d t]; simpl;
      (split; [split; [lia | discriminate]
              | split; [intros _; lia | intros _; exact I]]).
Qed.

Lemma secure_randint_raises_iff_witness :
  _secure_randint 5 3 [9] = Raise (ValueError randbelow_msg) [9].
Proof.
  apply (proj1 (proj1 (secure_randint_raises_iff 5 3 [9]))). lia.
Defined.


(** X2: for [0 <= k <= len items] the sample returns exactly when the
    draws contain at least [k] different indices; with fewer it is still
    waiting for entropy, and no partial sample comes out. *)
Theorem secure_sample_returns_iff {A} (items : list A) (k : Z) (t : tape) :
  0 <= k <= len items ->
  ((exists xs rest, _secure_sample items k t = Ok xs rest) <->
   k <= Z.of_nat (size (drawn_indices (len items) t))) /\
  (Z.of_nat (size (drawn_indices (len items) t)) < k ->
   _secure_sample items k t = Starved).
Proof.
  intros [Hk0 Hk].
  assert ((exists xs rest, _secure_sample items k t = Ok xs rest) <->
          k <= Z.of_nat (size (drawn_indices (len items) t))) as Hiff.
  { split.
    - intros (xs & rest & Hrun).
      destruct (secure_sample_Ok_inv items k t xs rest Hk0 Hrun) as [Hlen _].
      rewrite secure_sample_in_bounds in Hrun by exact Hk.
      apply while_sample_needs in Hrun; [| reflexivity].
      rewrite union_empty_l_L in Hrun. lia.
    - intros Hdrawn. rewrite secure_sample_in_bounds by exact Hk.
      apply while_sample_enough; [exact Hk | lia | reflexivity |].
      rewrite union_empty_l_L. exact Hdrawn. }
  split; [exact Hiff |]. intros Hfew.
  destruct (_secure_sample items k t) as [xs rest | e rest |] eqn:Hrun.
  - assert (k <= Z.of_nat (size (drawn_indices (len items) t)))
      by (apply Hiff; exists xs, rest; reflexivity).
    lia.
  - rewrite secure_sample_in_bounds in Hrun by exact Hk.
    exfalso. exact (while_sample_no_raise _ items k Hk _ _ _ _ _ Hrun).
  - reflexivity.
Qed.

Lemma secure_sample_returns_iff_witness :
  0 <= 2 <= len ["a"; "b"; "c"] /\
  _secure_sample ["a"; "b"; "c"] 2 [4; 1; 7] = Starved.
Proof.
  assert (0 <= 2 <= len ["a"; "b"; "c"]) as H by (unfold len; simpl; lia).
  split; [exact H |].
  apply (proj2 (secure_sample_returns_iff ["a"; "b"; "c"] 2 [4; 1; 7] H)).
  vm_compute. reflexivity.
Defined.

(** X3: a sample that returns has consumed a prefix of the tape and left
    the rest; it is made of the items at the different indices drawn in that
    prefix, in the order in which they were first drawn; and no shorter
    prefix holds [k] different indices. *)
Theorem secure_sample_order_of_selection {A} (items : list A) (k : Z)
    (t : tape) (xs : list A) (rest : tape) :
  _secure_sample items k t = Ok xs rest ->
  exists used,
    t = (used ++ rest)%list /\
    Forall2 (fun i x => items !! Z.to_nat i = Some x)
      (first_occurrences ∅ (map (fun d => d mod len items) used)) xs /\
    (forall n, (n < length used)%nat ->
       len (first_occurrences ∅
              (map (fun d => d mod len items) (take n used))) < k).
Proof.
  intros Hrun. unfold _secure_sample in Hrun.
  destruct (k >? len items); [discriminate |].
  apply while_sample_order in Hrun.
  destruct Hrun as (used & new & Ht & Hxs & Hall & Hmin).
  exists used. split; [exact Ht |]. simpl in Hxs. subst xs.
  split; [exact Hall |].
  intros n Hn. specialize (Hmin n Hn). unfold len in Hmin at 1. simpl in Hmin.
  exact Hmin.
Qed.

Lemma secure_sample_order_of_selection_witness :
  exists used,
    [5; 2; 5; 0; 1] = (used ++ [1])%list /\
    Forall2 (fun i x => ["a"; "b"; "c"] !! Z.to_nat i = Some x)
      (first_occurrences ∅ (map (fun d => d mod len ["a"; "b"; "c"]) used))
      ["c"; "a"].
Proof.
  assert (_secure_sample ["a"; "b"; "c"] 2 [5; 2; 5; 0; 1] = Ok ["c"; "a"] [1])
    as H by (vm_compute; reflexivity).
  destruct (secure_sample_order_of_selection _ _ _ _ _ H) as (used & Ht & Hall & _).
  exists used. split; [exact Ht | exact Hall].
Defined.

(** ** The handlers that print a number *)

Lemma to_int_proper (n : Z) :
  Z.to_int n <> Decimal.Pos Decimal.Nil /\ Z.to_int n <> Decimal.Neg Decimal.Nil.
Proof.
  destruct n; simpl; split; try discriminate.
  - intros H. injection H as H. revert H. apply DecimalPos.Unsigned.to_uint_nonnil.
  - intros H. injection H as H. revert H. apply DecimalPos.Unsigned.to_uint_nonnil.
Qed.

(** Different integers print differently. *)
Lemma str_inj (n n' : Z) : str n = str n' -> n = n'.
Proof.
  intros H. apply DecimalZ.to_int_inj.
  destruct (to_int_proper n) as [H1 H2]. destruct (to_int_proper n') as [H1' H2'].
  pose proof (NilZero.isi _ H1 H2) as E. pose proof (NilZero.isi _ H1' H2') as E'.
  unfold str in H. rewrite H in E. rewrite E in E'. injection E' as E'. exact E'.
Qed.

Lemma print_randint_draw (lo hi d : Z) (t : tape) :
  lo <= hi ->
  (let* result := _secure_randint lo hi in ret (str result)) (d :: t)
  = Ok (str (lo + d mod (hi - lo + 1))) t.
Proof.
  intros Hle. unfold bind, _secure_randint, bind.
  rewrite randbelow_draw by lia. reflexivity.
Qed.

Lemma print_randint_starved (lo hi : Z) :
  lo <= hi ->
  (let* result := _secure_randint lo hi in ret (str result)) [] = Starved.
Proof.
  intros Hle. unfold bind, _secure_randint, bind.
  rewrite randbelow_starved by lia. reflexivity.
Qed.

Lemma print_randint_raises (lo hi : Z) (t : tape) :
  hi < lo ->
  (let* result := _secure_randint lo hi in ret (str result)) t
  = Raise (ValueError randbelow_msg) t.
Proof.
  intros Hlt. unfold bind, _secure_randint, bind.
  rewrite randbelow_nonpositive by lia. reflexivity.
Qed.

(** X4: [flip_coin] never raises; it consumes one draw and answers ["0"] on
    an even draw and ["1"] on an odd one, and nothing else. *)
Theorem flip_coin_heads_or_tails (t : tape) :
  not_raised (flip_coin t) /\
  (forall d rest,
      flip_coin (d :: rest) = Ok (if Z.even d then "0" else "1") rest) /\
  (forall body rest,
      flip_coin t = Ok body rest ->
      (body = "0" \/ body = "1") /\ exists d, t = d :: rest).
Proof.
  assert (forall d rest,
            flip_coin (d :: rest) = Ok (if Z.even d then "0" else "1") rest)
    as Hdraw.
  { intros d rest. unfold flip_coin. rewrite print_randint_draw by lia.
    change (1 - 0 + 1) with 2. rewrite Zmod_even.
    destruct (Z.even d); reflexivity. }
  split; [| split; [exact Hdraw |]].
  - destruct t as [| d rest].
    + unfold flip_coin. rewrite print_randint_starved by lia. exact I.
    + rewrite Hdraw. exact I.
  - intros body rest Hrun. destruct t as [| d rest'].
    + unfold flip_coin in Hrun. rewrite print_randint_starved in Hrun by lia.
      discriminate.
    + rewrite Hdraw in Hrun. injection Hrun as <- <-.
      split; [destruct (Z.even d); [left | right]; reflexivity |].
      exists d. reflexivity.
Qed.

(** X5: for [1 <= sides], [roll_dice] consumes one draw and answers the
    numeral of a face between 1 and [sides]; every face comes out for some
    draw, and different faces give different answers. *)
Theorem roll_dice_faces (sides : Z) :
  1 <= sides ->
  (forall d rest, exists face,
      1 <= face <= sides /\ roll_dice sides (d :: rest) = Ok (str face) rest) /\
  (forall face, 1 <= face <= sides ->
     exists d, forall rest, roll_dice sides (d :: rest) = Ok (str face) rest) /\
  (forall face face', str face = str face' -> face = face') /\
  (forall t, not_raised (roll_dice sides t)).
Proof.
  intros Hs. split; [| split; [| split]].
  - intros d rest. exists (1 + d mod (sides - 1 + 1)). split.
    + pose proof (mod_in_range d (sides - 1 + 1)). lia.
    + unfold roll_dice. apply print_randint_draw. lia.
  - intros face Hf. exists (face - 1). intros rest.
    unfold roll_dice. rewrite print_randint_draw by lia.
    rewrite Z.mod_small by lia. do 2 f_equal. lia.
  - exact str_inj.
  - intros [| d rest]; unfold roll_dice.
    + rewrite print_randint_starved by lia. exact I.
    + rewrite print_randint_draw by lia. exact I.
Qed.

Lemma roll_dice_faces_witness :
  1 <= 6 /\ exists face, 1 <= face <= 6 /\ roll_dice 6 [17] = Ok (str face) [].
Proof.
  assert (1 <= 6) as H by lia.
  split; [exact H |]. exact (proj1 (roll_dice_faces 6 H) 17 []).
Defined.

(** X6: [random_number] does not compare its bounds: it raises exactly when
    [max < min], which the separate checks [0 <= min] and
    [max <= 1_000_000_000] of the query allow; otherwise it consumes one
    draw and answers the numeral of a number between [min] and [max]. *)
Theorem random_number_unchecked_bounds (min max : Z) :
  (forall t, random_number min max t = Raise (ValueError randbelow_msg) t <->
             max < min) /\
  (0 <= max < min -> max <= 1000000000 ->
   valid_number_query min max = true /\
   forall t, random_number min max t = Raise (ValueError randbelow_msg) t) /\
  (min <= max ->
   forall d rest, exists n,
     min <= n <= max /\ random_number min max (d :: rest) = Ok (str n) rest).
Proof.
  split; [| split].
  - intros t. split.
    + intros Hrun. destruct (Z.lt_ge_cases max min) as [Hlt | Hge]; [exact Hlt |].
      unfold random_number in Hrun. destruct t as [| d rest].
      * rewrite print_randint_starved in Hrun by lia. discriminate.
      * rewrite print_randint_draw in Hrun by lia. discriminate.
    + intros Hlt. unfold random_number. apply print_randint_raises. exact Hlt.
  - intros Hlt Hmax. split.
    + unfold valid_number_query.
      destruct (Z.leb_spec 0 min); [| lia].
      destruct (Z.leb_spec max 1000000000); [reflexivity | lia].
    + intros t. unfold random_number. apply print_randint_raises. lia.
  - intros Hle d rest. exists (min + d mod (max - min + 1)). split.
    + pose proof (mod_in_range d (max - min + 1)). lia.
    + unfold random_number. apply print_randint_draw. exact Hle.
Qed.

Lemma random_number_unchecked_bounds_witness :
  valid_number_query 200 100 = true /\
  random_number 200 100 [5] = Raise (ValueError randbelow_msg) [5].
Proof.
  assert (0 <= 100 < 200) as H1 by lia.
  assert (100 <= 1000000000) as H2 by lia.
  destruct (proj1 (proj2 (random_number_unchecked_bounds 200 100)) H1 H2)
    as [Hv Hr].
  split; [exact Hv | exact (Hr [5])].
Defined.

Lemma flip_coin_heads_or_tails_witness :
  ("1" = "0" \/ "1" = "1") /\ exists d, [7; 8] = d :: [8].
Proof.
  apply (proj2 (proj2 (flip_coin_heads_or_tails [7; 8])) "1" [8]).
  vm_compute. reflexivity.
Defined.

(** ** [random_string] *)

Lemma chars_one_char (s x : string) :
  x ∈ chars s -> exists a, x = String a EmptyString.
Proof.
  induction s as [| c s IH]; simpl; intros Hx.
  - apply not_elem_of_nil in Hx. contradiction.
  - apply elem_of_cons in Hx. destruct Hx as [-> | Hx]; [exists c; reflexivity |].
    apply IH. exact Hx.
Qed.

Lemma chars_length (s : string) : length (chars s) = String.length s.
Proof. induction s as [| c s IH]; simpl; [reflexivity | rewrite IH; reflexivity]. Qed.

Lemma join_empty_cons (x : string) (xs : list string) :
  join EmptyString (x :: xs) = x +:+ join EmptyString xs.
Proof.
  unfold join. destruct xs as [| y xs]; simpl.
  - induction x as [| c x IH]; [reflexivity |].
    change (String c x = String c (x +:+ EmptyString)). f_equal. exact IH.
  - reflexivity.
Qed.

(** Joining one-character strings with the empty separator gives the string
    of these characters. *)
Lemma chars_join_one_char (xs : list string) :
  Forall (fun x => exists a, x = String a EmptyString) xs ->
  chars (join EmptyString xs) = xs.
Proof.
  induction 1 as [| x xs [a ->] _ IH]; [reflexivity |].
  rewrite join_empty_cons.
  change (String a EmptyString +:+ join EmptyString xs)
    with (String a (join EmptyString xs)).
  cbn [chars]. rewrite IH. reflexivity.
Qed.

Lemma join_chars (s : string) : join EmptyString (chars s) = s.
Proof.
  induction s as [| c s IH]; [reflexivity |].
  cbn [chars]. rewrite join_empty_cons, IH. reflexivity.
Qed.

Lemma secure_choice_draw {A} (items : list A) (d : Z) (t : tape) :
  items <> [] ->
  exists x, items !! Z.to_nat (d mod len items) = Some x /\
            _secure_choice items (d :: t) = Ok x t.
Proof.
  intros Hne. pose proof (len_positive _ Hne) as Hpos.
  unfold _secure_choice, bind. rewrite randbelow_draw by exact Hpos.
  apply getitem_in_range. apply mod_in_range. exact Hpos.
Qed.

Lemma looked_up_elem_of {A B} (items : list A) (f : B -> nat) ds xs :
  Forall2 (fun d x => items !! f d = Some x) ds xs ->
  Forall (fun x => x ∈ items) xs.
Proof.
  induction 1 as [| d x ds xs Hx _ IH]; constructor; [| exact IH].
  eapply list_elem_of_lookup_2. exact Hx.
Qed.

(** [n] turns of a choice consume the first [n] draws, one each. *)
Lemma for_range_choice {A} (items : list A) :
  items <> [] ->
  forall n t,
    ((n <= length t)%nat ->
     exists xs,
       for_range n (_secure_choice items) t = Ok xs (drop n t) /\
       Forall2 (fun d x => items !! Z.to_nat (d mod len items) = Some x)
               (take n t) xs) /\
    ((length t < n)%nat -> for_range n (_secure_choice items) t = Starved).
Proof.
  intros Hne. destruct (secure_choice_total items Hne) as [Hstarved _].
  induction n as [| n IH]; intros t.
  - split; [| simpl; lia]. intros _. exists []. split; [reflexivity | constructor].
  - destruct t as [| d t].
    + split; [simpl; lia |]. intros _. cbn [for_range]. unfold bind.
      rewrite Hstarved. reflexivity.
    + destruct (secure_choice_draw items d t Hne) as (x & Hx & Hrun).
      destruct (IH t) as [IHok IHst]. split.
      * intros Hlen. simpl in Hlen. destruct IHok as (xs & Hxs & Hall); [lia |].
        exists (x :: xs). split.
        { cbn [for_range]. unfold bind at 1. rewrite Hrun.
          unfold bind. rewrite Hxs. reflexivity. }
        cbn [take]. constructor; assumption.
      * intros Hlen. simpl in Hlen. cbn [for_range]. unfold bind at 1.
        rewrite Hrun. unfold bind. rewrite IHst by lia. reflexivity.
Qed.

(** X7: [random_string] consumes exactly one draw per character: with at
    least [length] draws it returns a string of [length] characters (none
    for a [length] that is not positive), all of them letters of the
    alphabet, and leaves the other draws; with fewer draws it is still
    waiting, and it never raises. *)
Theorem random_string_shape (length : Z) (t : tape) :
  ((Z.to_nat length <= List.length t)%nat ->
   exists s,
     random_string length t = Ok s (drop (Z.to_nat length) t) /\
     String.length s = Z.to_nat length /\
     forall c, c ∈ chars s -> c ∈ chars letters) /\
  ((List.length t < Z.to_nat length)%nat -> random_string length t = Starved).
Proof.
  assert (chars letters <> []) as Hne by discriminate.
  destruct (for_range_choice (chars letters) Hne (Z.to_nat length) t)
    as [Hok Hst].
  split.
  - intros Hlen. destruct (Hok Hlen) as (xs & Hrun & Hall).
    assert (Forall (fun x => x ∈ chars letters) xs) as Hin
      by (eapply looked_up_elem_of; exact Hall).
    assert (chars (join EmptyString xs) = xs) as Hchars.
    { apply chars_join_one_char. eapply Forall_impl; [exact Hin |].
      intros x Hx. eapply chars_one_char. exact Hx. }
    exists (join EmptyString xs). split; [| split].
    + unfold random_string, bind. rewrite Hrun. reflexivity.
    + rewrite <- chars_length, Hchars.
      apply Forall2_length in Hall. rewrite <- Hall, length_take. lia.
    + intros c Hc. rewrite Hchars in Hc.
      rewrite Forall_forall in Hin. apply Hin. exact Hc.
  - intros Hlen. unfold random_string, bind. rewrite Hst by exact Hlen.
    reflexivity.
Qed.

Lemma random_string_shape_witness :
  exists s,
    random_string 3 [0; 27; 53; 9] = Ok s [9] /\ String.length s = 3%nat.
Proof.
  assert (Z.to_nat 3 <= List.length [0; 27; 53; 9])%nat as H by (simpl; lia).
  destruct (proj1 (random_string_shape 3 [0; 27; 53; 9]) H) as (s & Hs & Hl & _).
  exists s. split; [exact Hs | exact Hl].
Defined.

(** X8: every string of letters of the alphabet is the answer of
    [random_string] for its own length on some draws. *)
Theorem random_string_reaches (s : string) :
  (forall c, c ∈ chars s -> c ∈ chars letters) ->
  exists t,
    List.length t = String.length s /\
    random_string (Z.of_nat (String.length s)) t = Ok s [].
Proof.
  intros Hs.
  assert (chars letters <> []) as Hne by discriminate.
  assert (exists t,
             List.length t = String.length s /\
             for_range (String.length s) (_secure_choice (chars letters)) t
             = Ok (chars s) []) as (t & Hlen & Hrun).
  { induction s as [| a s IH].
    - exists []. split; reflexivity.
    - destruct IH as (t & Hlen & Hrun).
      { intros c Hc. apply Hs. simpl. apply list_elem_of_further. exact Hc. }
      assert (String a EmptyString ∈ chars letters) as Ha
        by (apply Hs; simpl; apply list_elem_of_here).
      apply list_elem_of_lookup in Ha. destruct Ha as [i Hi].
      pose proof (lookup_lt_Some _ _ _ Hi) as Hlt.
      exists (Z.of_nat i :: t). split; [simpl; rewrite Hlen; reflexivity |].
      destruct (secure_choice_draw (chars letters) (Z.of_nat i) t Hne)
        as (x & Hx & Hdraw).
      rewrite Z.mod_small in Hx by (unfold len; lia).
      rewrite Nat2Z.id, Hi in Hx. injection Hx as <-.
      cbn [String.length for_range chars]. unfold bind at 1. rewrite Hdraw.
      unfold bind. rewrite Hrun. reflexivity. }
  exists t. split; [exact Hlen |].
  unfold random_string, bind. rewrite Nat2Z.id, Hrun.
  unfold ret. rewrite join_chars. reflexivity.
Qed.

Lemma random_string_reaches_witness :
  exists t, List.length t = 2%nat /\ random_string 2 t = Ok "Hi" [].
Proof.
  apply (random_string_reaches "Hi").
  intros c Hc. simpl in Hc.
  repeat (apply elem_of_cons in Hc; destruct Hc as [-> | Hc]; [compute_done |]).
  apply not_elem_of_nil in Hc. contradiction.
Defined.

(** ** The digit step and the length of a passphrase *)

Lemma append_cons (c : ascii) (a b : string) :
  String c a +:+ b = String c (a +:+ b).
Proof. reflexivity. Qed.

Lemma length_append (a b : string) :
  String.length (a +:+ b) = (String.length a + String.length b)%nat.
Proof.
  induction a as [| c a IH]; [reflexivity |].
  rewrite append_cons. cbn [String.length]. rewrite IH. reflexivity.
Qed.

Lemma lower_length (s : string) : String.length (lower s) = String.length s.
Proof. induction s as [| c s IH]; simpl; [reflexivity | rewrite IH; reflexivity]. Qed.

Lemma upper_length (s : string) : String.length (upper s) = String.length s.
Proof. induction s as [| c s IH]; simpl; [reflexivity | rewrite IH; reflexivity]. Qed.

Lemma title_length (s : string) : String.length (title s) = String.length s.
Proof.
  unfold title. generalize false.
  induction s as [| c s IH]; intros b; cbn [title_from]; [reflexivity |].
  destruct (is_upper c || is_lower c); cbn [String.length]; rewrite IH; reflexivity.
Qed.

Lemma total_length_map (f : string -> string) (l : list string) :
  (forall x, String.length (f x) = String.length x) ->
  total_length (map f l) = total_length l.
Proof.
  intros Hf. unfold total_length.
  induction l as [| x l IH]; simpl; [reflexivity | rewrite Hf, IH; reflexivity].
Qed.

Lemma total_length_insert (l : list string) (n : nat) (w w' : string) :
  l !! n = Some w ->
  (total_length (<[n := w']> l) + String.length w
   = total_length l + String.length w')%nat.
Proof.
  unfold total_length. revert n.
  induction l as [| x l IH]; intros n Hn; [discriminate |].
  destruct n as [| n]; simpl in *.
  - injection Hn as ->. lia.
  - specialize (IH n Hn). lia.
Qed.

Lemma join_length (sep : string) (l : list string) :
  String.length (join sep l)
  = (total_length l + (length l - 1) * String.length sep)%nat.
Proof.
  unfold join, total_length.
  induction l as [| x l IH]; [reflexivity |].
  destruct l as [| y l].
  - simpl. lia.
  - change (String.concat sep (x :: y :: l))
      with (x +:+ sep +:+ String.concat sep (y :: l)).
    rewrite !length_append, IH. cbn [sum_list_with length]. lia.
Qed.

Lemma str_digit (digit : Z) :
  0 <= digit <= 9 ->
  str digit ∈ ["0"; "1"; "2"; "3"; "4"; "5"; "6"; "7"; "8"; "9"].
Proof.
  intros Hd.
  assert (digit = 0 \/ digit = 1 \/ digit = 2 \/ digit = 3 \/ digit = 4 \/
          digit = 5 \/ digit = 6 \/ digit = 7 \/ digit = 8 \/ digit = 9)
    as Hcases by lia.
  repeat (destruct Hcases as [-> | Hcases]; [compute_done |]).
  subst digit. compute_done.
Qed.

Lemma one_char_length (x : string) :
  (exists a, x = String a EmptyString) -> String.length x = 1%nat.
Proof. intros [a ->]. reflexivity. Qed.

Lemma str_digit_length (digit : Z) :
  0 <= digit <= 9 -> String.length (str digit) = 1%nat.
Proof.
  intros Hd. apply str_digit in Hd.
  repeat (apply elem_of_cons in Hd; destruct Hd as [-> | Hd]; [reflexivity |]).
  apply not_elem_of_nil in Hd. contradiction.
Qed.

(** X9: the digit step consumes two draws and appends one decimal digit to
    one of the words; the other words stay as they are. *)
Theorem numbers_step_appends_digit (chosen_words : list string) (t : tape)
    (ws : list string) (rest : tape) :
  numbers_step chosen_words t = Ok ws rest ->
  exists d1 d2 n word digit,
    t = d1 :: d2 :: rest /\
    chosen_words !! n = Some word /\
    digit ∈ ["0"; "1"; "2"; "3"; "4"; "5"; "6"; "7"; "8"; "9"] /\
    ws !! n = Some (word +:+ digit) /\
    length ws = length chosen_words /\
    (forall m, m <> n -> ws !! m = chosen_words !! m).
Proof.
  unfold numbers_step. intros H.
  apply bind_Ok_inv in H. destruct H as (index & t1 & Hindex & H).
  apply bind_Ok_inv in H. destruct H as (word & t2 & Hget & H).
  apply bind_Ok_inv in H. destruct H as (digit & t3 & Hdigit & Hset).
  apply secure_randint_Ok_inv in Hindex. destruct Hindex as (_ & d1 & ->).
  apply getitem_Ok_inv in Hget. destruct Hget as (-> & n & Hn & Hword).
  apply secure_randint_Ok_inv in Hdigit. destruct Hdigit as (Hd & d2 & ->).
  apply setitem_Ok_inv in Hset. destruct Hset as (-> & n' & Hn' & ->).
  rewrite Hn in Hn'. injection Hn' as <-.
  exists d1, d2, n, word, (str digit).
  split; [reflexivity |]. split; [exact Hword |].
  split; [apply str_digit; lia |]. split; [| split].
  - apply list_lookup_insert_eq. eapply lookup_lt_Some. exact Hword.
  - apply length_insert.
  - intros m Hm. apply list_lookup_insert_ne. congruence.
Qed.

Lemma numbers_step_appends_digit_witness :
  exists d1 d2 n word digit,
    [3; 17] = d1 :: d2 :: [] /\
    ["alpha"; "beta"] !! n = Some word /\
    ["alpha"; "beta7"] !! n = Some (word +:+ digit).
Proof.
  assert (numbers_step ["alpha"; "beta"] [3; 17] = Ok ["alpha"; "beta7"] [])
    as H by (vm_compute; reflexivity).
  destruct (numbers_step_appends_digit _ _ _ _ H)
    as (d1 & d2 & n & word & digit & Ht & Hw & _ & Hws & _).
  exists d1, d2, n, word, digit. split; [exact Ht |]. split; [exact Hw | exact Hws].
Defined.

Lemma case_step_total_length case chosen_words t ws rest :
  case_step case chosen_words t = Ok ws rest ->
  total_length ws = total_length chosen_words.
Proof.
  unfold case_step.
  destruct (String.eqb case "lower").
  { intros H. apply ret_Ok_inv in H. destruct H as [-> _].
    apply total_length_map. exact lower_length. }
  destruct (String.eqb case "upper").
  { intros H. apply ret_Ok_inv in H. destruct H as [-> _].
    apply total_length_map. exact upper_length. }
  destruct (String.eqb case "title").
  { intros H. apply ret_Ok_inv in H. destruct H as [-> _].
    apply total_length_map. exact title_length. }
  destruct (String.eqb case "camel").
  { cbv zeta. intros H. apply bind_Ok_inv in H. destruct H as (w & t' & Hget & Hset).
    apply getitem_Ok_inv in Hget. destruct Hget as (-> & n & Hn & Hw).
    apply setitem_Ok_inv in Hset. destruct Hset as (_ & n' & Hn' & ->).
    rewrite Hn in Hn'. injection Hn' as <-.
    pose proof (total_length_insert _ n w (lower w) Hw) as Hins.
    rewrite lower_length in Hins.
    rewrite (total_length_map title chosen_words title_length) in Hins. lia. }
  intros H. apply ret_Ok_inv in H. destruct H as [-> _]. reflexivity.
Qed.

(** X10: for a word list and a separator of ASCII text and [1 <= words],
    the passphrase has as many characters as the sampled words together,
    plus the separator between consecutive words, plus one for the digit
    and one for the symbol when they are asked for: on ASCII words the case
    step changes no length. *)
Theorem passphrase_length (wl : list string) (words : Z)
    (numbers symbols : bool) (separator case : string)
    (t : tape) (out : string) (rest : tape) :
  Forall (fun w => is_ascii w = true) wl -> is_ascii separator = true ->
  1 <= words ->
  random_passphrase wl words numbers symbols separator case t = Ok out rest ->
  exists sampled t0,
    _secure_sample wl words t = Ok sampled t0 /\
    String.length out
    = (total_length sampled + (Z.to_nat words - 1) * String.length separator
       + (if numbers then 1 else 0) + (if symbols then 1 else 0))%nat.
Proof.
  intros _ _ Hw Hrun.
  assert (exists ws, passphrase_words wl words numbers symbols separator case t
                     = Ok ws rest /\ out = join separator ws) as (ws & Hws & ->).
  { unfold random_passphrase in Hrun.
    apply bind_Ok_inv in Hrun. destruct Hrun as (ws & t' & Hws & Hret).
    apply ret_Ok_inv in Hret. destruct Hret as [-> ->]. exists ws.
    split; [exact Hws | reflexivity]. }
  assert (len ws = words) as Hlen
    by (eapply passphrase_words_length; [| exact Hws]; lia).
  unfold passphrase_words in Hws.
  apply bind_Ok_inv in Hws. destruct Hws as (ws0 & t0 & Hsample & H).
  apply bind_Ok_inv in H. destruct H as (ws1 & t1 & Hcase & H).
  apply bind_Ok_inv in H. destruct H as (ws2 & t2 & Hnum & Hsym).
  exists ws0, t0. split; [exact Hsample |].
  apply case_step_total_length in Hcase.
  assert (total_length ws2 = total_length ws1 + (if numbers then 1 else 0))%nat
    as Hl2.
  { destruct numbers.
    - apply numbers_step_Ok_inv in Hnum.
      destruct Hnum as (n & w & d & Hw' & Hd & ->).
      pose proof (total_length_insert ws1 n w (w +:+ str d) Hw') as Hins.
      rewrite length_append, str_digit_length in Hins by lia. lia.
    - apply ret_Ok_inv in Hnum. destruct Hnum as [-> _]. lia. }
  assert (total_length ws = total_length ws2 + (if symbols then 1 else 0))%nat
    as Hl3.
  { destruct symbols.
    - apply symbols_step_Ok_inv in Hsym.
      destruct Hsym as (n & w & s & Hw' & Hs & ->).
      pose proof (total_length_insert ws2 n w (w +:+ s) Hw') as Hins.
      rewrite length_append in Hins.
      rewrite (one_char_length s) in Hins by (eapply chars_one_char; exact Hs).
      lia.
    - apply ret_Ok_inv in Hsym. destruct Hsym as [-> _]. lia. }
  rewrite join_length. unfold len in Hlen.
  replace (Z.to_nat words) with (length ws) by lia. lia.
Qed.

Lemma passphrase_length_witness :
  exists sampled t0,
    _secure_sample ["apple"; "banana"] 2 [1; 0; 0; 7; 1; 3] = Ok sampled t0 /\
    String.length "Banana7-Apple$"
    = (total_length sampled + (Z.to_nat 2 - 1) * String.length "-" + 1 + 1)%nat.
Proof.
  assert (Forall (fun w => is_ascii w = true) ["apple"; "banana"]) as Ha
    by (repeat constructor).
  assert (is_ascii "-" = true) as Hs by reflexivity.
  assert (1 <= 2) as H1 by lia.
  assert (random_passphrase ["apple"; "banana"] 2 true true "-" "title"
            [1; 0; 0; 7; 1; 3] = Ok "Banana7-Apple$" []) as H2
    by (vm_compute; reflexivity).
  exact (passphrase_length ["apple"; "banana"] 2 true true "-" "title"
           [1; 0; 0; 7; 1; 3] "Banana7-Apple$" [] Ha Hs H1 H2).
Defined.

(** ** Stripping and the word list *)

Lemma lstrip_head (s : string) :
  lstrip s = EmptyString \/
  exists c r, lstrip s = String c r /\ isspace c = false.
Proof.
  induction s as [| c s IH]; [left; reflexivity |].
  cbn [lstrip]. destruct (isspace c) eqn:Hc; [exact IH |].
  right. exists c, s. split; [reflexivity | exact Hc].
Qed.

Lemma lstrip_nonspace (c : ascii) (r : string) :
  isspace c = false -> lstrip (String c r) = String c r.
Proof. intros Hc. cbn [lstrip]. rewrite Hc. reflexivity. Qed.

Lemma rstrip_nonspace (c : ascii) (r : string) :
  isspace c = false -> rstrip (String c r) = String c (rstrip r).
Proof.
  intros Hc. cbn [rstrip]. destruct (rstrip r); [rewrite Hc |]; reflexivity.
Qed.

Lemma rstrip_cons (c : ascii) (s : string) :
  rstrip (String c s)
  = match rstrip s with
    | EmptyString => if isspace c then EmptyString else String c EmptyString
    | r => String c r
    end.
Proof. reflexivity. Qed.

Lemma rstrip_idempotent (s : string) : rstrip (rstrip s) = rstrip s.
Proof.
  induction s as [| c s IH]; [reflexivity |].
  rewrite rstrip_cons. destruct (rstrip s) as [| a r] eqn:Hr.
  - destruct (isspace c) eqn:Hc; [reflexivity |].
    rewrite rstrip_cons. cbn [rstrip]. rewrite Hc. reflexivity.
  - rewrite rstrip_cons, IH. reflexivity.
Qed.

Lemma strip_shape (s : string) :
  strip s = EmptyString \/
  exists c r, isspace c = false /\ strip s = String c (rstrip r).
Proof.
  unfold strip. destruct (lstrip_head s) as [-> | (c & r & -> & Hc)].
  - left. reflexivity.
  - right. exists c, r. split; [exact Hc | apply rstrip_nonspace; exact Hc].
Qed.

(** A stripped string has nothing left to strip at either end. *)
Lemma strip_fixed (s : string) :
  lstrip (strip s) = strip s /\ rstrip (strip s) = strip s.
Proof.
  destruct (strip_shape s) as [-> | (c & r & Hc & ->)].
  - split; reflexivity.
  - split; [apply lstrip_nonspace; exact Hc |].
    rewrite rstrip_nonspace by exact Hc. rewrite rstrip_idempotent. reflexivity.
Qed.

Lemma strip_idempotent (s : string) : strip (strip s) = strip s.
Proof.
  destruct (strip_fixed s) as [Hl Hr]. unfold strip at 1. rewrite Hl. exact Hr.
Qed.

Lemma nonempty_true (s : string) : nonempty s = true <-> s <> EmptyString.
Proof. destruct s; simpl; split; congruence. Qed.

Lemma load_word_list_elem_of (lines : list string) (w : string) :
  w ∈ load_word_list lines <->
  exists line, line ∈ lines /\ strip line = w /\ w <> EmptyString.
Proof.
  unfold load_word_list. rewrite list_elem_of_In, in_map_iff. split.
  - intros (line & <- & Hin). apply list_elem_of_In in Hin.
    apply list_elem_of_filter in Hin. destruct Hin as [Hne Hin].
    exists line. split; [exact Hin |]. split; [reflexivity |].
    apply nonempty_true. exact Hne.
  - intros (line & Hin & <- & Hne). exists line. split; [reflexivity |].
    apply list_elem_of_In. apply list_elem_of_filter.
    split; [apply nonempty_true; exact Hne | exact Hin].
Qed.

Lemma load_clean_list (l : list string) :
  Forall (fun w => w <> EmptyString /\ strip w = w) l -> load_word_list l = l.
Proof.
  unfold load_word_list. induction 1 as [| w l [Hne Hw] _ IH]; [reflexivity |].
  rewrite filter_cons_True by (rewrite Hw; apply nonempty_true; exact Hne).
  cbn [map]. rewrite Hw, IH. reflexivity.
Qed.

Lemma load_word_list_app (l1 l2 : list string) :
  load_word_list (l1 ++ l2)%list
  = (load_word_list l1 ++ load_word_list l2)%list.
Proof. unfold load_word_list. rewrite filter_app, map_app. reflexivity. Qed.

Lemma load_word_list_line (line : string) :
  load_word_list [line]
  = if nonempty (strip line) then [strip line] else [].
Proof.
  unfold load_word_list. destruct (nonempty (strip line)) eqn:Hne.
  - rewrite filter_cons_True by exact Hne. reflexivity.
  - rewrite filter_cons_False by (rewrite Hne; discriminate). reflexivity.
Qed.

(** X11: for a file of ASCII lines, the loaded list is made line by line
    and in the order of the lines: a line that is blank once stripped gives
    nothing, any other line gives its stripped text, repeated lines
    included.  So every word is non-empty and has no white space at either
    end, the words are the stripped non-blank lines, and loading the loaded
    list again changes nothing. *)
Theorem load_word_list_clean (lines : list string) :
  Forall (fun line => is_ascii line = true) lines ->
  (forall l1 l2, lines = (l1 ++ l2)%list ->
     load_word_list lines = (load_word_list l1 ++ load_word_list l2)%list) /\
  (forall line, line ∈ lines ->
     load_word_list [line]
     = if nonempty (strip line) then [strip line] else []) /\
  Forall (fun w => w <> EmptyString /\ lstrip w = w /\ rstrip w = w)
         (load_word_list lines) /\
  (forall w, w ∈ load_word_list lines <->
             exists line, line ∈ lines /\ strip line = w /\ w <> EmptyString) /\
  load_word_list (load_word_list lines) = load_word_list lines /\
  (length (load_word_list lines) <= length lines)%nat.
Proof.
  intros _. split; [| split; [| split; [| split; [| split]]]].
  - intros l1 l2 ->. apply load_word_list_app.
  - intros line _. apply load_word_list_line.
  - apply Forall_forall. intros w Hw. apply load_word_list_elem_of in Hw.
    destruct Hw as (line & _ & <- & Hne). split; [exact Hne |].
    apply strip_fixed.
  - apply load_word_list_elem_of.
  - apply load_clean_list. apply Forall_forall. intros w Hw.
    apply load_word_list_elem_of in Hw. destruct Hw as (line & _ & <- & Hne).
    split; [exact Hne | apply strip_idempotent].
  - unfold load_word_list. rewrite length_map. apply length_filter.
Qed.

Lemma load_word_list_clean_witness :
  load_word_list ["  apple "; "   "; "yo-yo"; "apple"]
  = (load_word_list ["  apple "; "   "] ++ load_word_list ["yo-yo"; "apple"])%list /\
  load_word_list ["  apple "; "   "; "yo-yo"; "apple"] = ["apple"; "yo-yo"; "apple"].
Proof.
  assert (Forall (fun line => is_ascii line = true)
            ["  apple "; "   "; "yo-yo"; "apple"]) as H by (repeat constructor).
  split; [| reflexivity].
  apply (proj1 (load_word_list_clean _ H) ["  apple "; "   "] ["yo-yo"; "apple"]).
  reflexivity.
Defined.

(** ** Splitting on one character *)

Lemma prefix_one_char (c a : ascii) (s : string) :
  String.prefix (String c EmptyString) (String a s)
  = if ascii_dec c a then true else false.
Proof. simpl. destruct (ascii_dec c a); [destruct s |]; reflexivity. Qed.

Lemma join_cons_cons (sep x y : string) (l : list string) :
  join sep (x :: y :: l) = x +:+ sep +:+ join sep (y :: l).
Proof. reflexivity. Qed.

Lemma join_head_cons (sep : string) (a : ascii) (seg : string) (segs : list string) :
  join sep (String a seg :: segs) = String a (join sep (seg :: segs)).
Proof. destruct segs; reflexivity. Qed.

(** Splitting on a one-character separator: the segments do not contain the
    character, and joined with it they give the string back. *)
Lemma split_char_spec (c : ascii) (s : string) :
  exists seg segs,
    split (String c EmptyString) s = seg :: segs /\
    join (String c EmptyString) (seg :: segs) = s /\
    Forall (fun x => String c EmptyString ∉ chars x) (seg :: segs).
Proof.
  unfold split. induction s as [| a s (seg & segs & Hsplit & Hjoin & Hall)].
  - exists EmptyString, []. split; [reflexivity |]. split; [reflexivity |].
    constructor; [apply not_elem_of_nil | constructor].
  - cbn [split_scan]. rewrite prefix_one_char.
    destruct (ascii_dec c a) as [<- | Hca].
    + exists EmptyString, (seg :: segs). cbn [String.length Nat.sub].
      rewrite Hsplit. split; [reflexivity |]. split.
      * rewrite join_cons_cons, Hjoin. reflexivity.
      * constructor; [apply not_elem_of_nil | exact Hall].
    + rewrite Hsplit. exists (String a seg), segs. split; [reflexivity |]. split.
      * rewrite join_head_cons, Hjoin. reflexivity.
      * apply Forall_cons in Hall. destruct Hall as [Hseg Hsegs].
        constructor; [| exact Hsegs]. cbn [chars].
        apply not_elem_of_cons. split; [congruence | exact Hseg].
Qed.

Lemma chars_lstrip (s x : string) : x ∈ chars (lstrip s) -> x ∈ chars s.
Proof.
  induction s as [| c s IH]; [intros H; exact H |].
  cbn [lstrip]. destruct (isspace c); [| intros H; exact H].
  intros H. cbn [chars]. apply list_elem_of_further. apply IH. exact H.
Qed.

Lemma chars_rstrip (s x : string) : x ∈ chars (rstrip s) -> x ∈ chars s.
Proof.
  induction s as [| c s IH]; [intros H; exact H |].
  cbn [rstrip]. destruct (rstrip s) as [| a r].
  - destruct (isspace c).
    + intros H. apply not_elem_of_nil in H. contradiction.
    + cbn [chars]. intros H. apply elem_of_cons in H. destruct H as [-> | H].
      * apply list_elem_of_here.
      * apply not_elem_of_nil in H. contradiction.
  - intros H. change (chars (String c (String a r)))
      with (String c EmptyString :: chars (String a r)) in H.
    apply elem_of_cons in H. destruct H as [-> | H].
    + apply list_elem_of_here.
    + cbn [chars]. apply list_elem_of_further. apply IH. exact H.
Qed.

Lemma chars_strip (s x : string) : x ∈ chars (strip s) -> x ∈ chars s.
Proof. intros H. apply chars_lstrip. apply chars_rstrip. exact H. Qed.

(** ** The [ip] handler *)

Lemma getitem_head {A} (x : A) (l : list A) (t : tape) :
  getitem (x :: l) 0 t = Ok x t.
Proof.
  destruct (getitem_in_range (x :: l) 0 t) as (y & Hy & ->).
  - unfold len. simpl length. lia.
  - simpl in Hy. injection Hy as ->. reflexivity.
Qed.

(** The answer built from a non-empty [X-Forwarded-For] value. *)
Lemma forwarded_first (x : string) (t : tape) :
  exists first,
    (let* first := getitem (split "," x) 0 in ret (strip first)) t
    = Ok (strip first) t /\
    ("," ∉ chars first) /\
    (x = first \/ exists more, x = first +:+ "," +:+ more).
Proof.
  destruct (split_char_spec ","%char x) as (seg & segs & Hsplit & Hjoin & Hall).
  exists seg. split; [| split].
  - unfold bind. rewrite Hsplit, getitem_head. reflexivity.
  - apply Forall_cons in Hall. exact (proj1 Hall).
  - destruct segs as [| seg' segs].
    + left. symmetry. exact Hjoin.
    + right. exists (join "," (seg' :: segs)). symmetry. exact Hjoin.
Qed.

(** X12: [ip] never raises and draws nothing.  For a peer that is not one
    of the local addresses the answer is the peer's host, whatever the
    headers say; for a local peer, or no peer, a non-empty
    [CF-Connecting-IP] is answered as it is, before [X-Forwarded-For] is
    looked at; without either header the answer is empty. *)
Theorem ip_peer_precedence (request : Request) (t : tape) :
  (exists body, ip request t = Ok body t) /\
  (forall host,
      client_host request = Some host -> Some host ∉ local_peers ->
      ip request t = Ok host t) /\
  (client_host request ∈ local_peers ->
   forall cf_ip,
     headers_get request "CF-Connecting-IP" = Some cf_ip ->
     cf_ip <> EmptyString ->
     ip request t = Ok cf_ip t) /\
  (client_host request ∈ local_peers ->
   (forall v, headers_get request "CF-Connecting-IP" = Some v -> v = EmptyString) ->
   (forall v, headers_get request "X-Forwarded-For" = Some v -> v = EmptyString) ->
   ip request t = Ok EmptyString t).
Proof.
  unfold ip. cbv zeta. split; [| split; [| split]].
  - destruct (bool_decide (client_host request ∈ local_peers));
      [| eexists; reflexivity].
    destruct (headers_get request "CF-Connecting-IP") as [[| c cf] |];
      try (eexists; reflexivity);
      (destruct (headers_get request "X-Forwarded-For") as [[| a x] |];
       try (eexists; reflexivity);
       destruct (forwarded_first (String a x) t) as (first & -> & _);
       eexists; reflexivity).
  - intros host Hhost Hnot. rewrite Hhost.
    rewrite bool_decide_eq_false_2 by exact Hnot. reflexivity.
  - intros Hlocal cf_ip Hcf Hne. rewrite bool_decide_eq_true_2 by exact Hlocal.
    rewrite Hcf. destruct cf_ip; [contradiction | reflexivity].
  - intros Hlocal Hcf Hxff. rewrite bool_decide_eq_true_2 by exact Hlocal.
    destruct (headers_get request "CF-Connecting-IP") as [[| c cf] |];
      try (specialize (Hcf _ eq_refl); discriminate);
      (destruct (headers_get request "X-Forwarded-For") as [[| a x] |];
       try (specialize (Hxff _ eq_refl); discriminate); reflexivity).
Qed.

Lemma ip_peer_precedence_witness :
  ip {| client_host := Some "203.0.113.9";
        raw_headers := [("x-forwarded-for", "10.0.0.1");
                        ("cf-connecting-ip", "10.0.0.2")] |} [4]
  = Ok "203.0.113.9" [4] /\
  ip {| client_host := Some "127.0.0.1";
        raw_headers := [("x-forwarded-for", "10.0.0.1");
                        ("cf-connecting-ip", "10.0.0.2")] |} [4]
  = Ok "10.0.0.2" [4].
Proof.
  split.
  - apply (proj1 (proj2 (ip_peer_precedence _ [4])) "203.0.113.9");
      [reflexivity | compute_done].
  - apply (proj1 (proj2 (proj2 (ip_peer_precedence _ [4]))));
      [compute_done | reflexivity | discriminate].
Defined.

(** X13: for a local peer without a usable [CF-Connecting-IP], a non-empty
    [X-Forwarded-For] is answered by its text before the first comma,
    stripped: the answer holds no comma and no white space at either end. *)
Theorem ip_forwarded_for (request : Request) (t : tape) (x_forwarded_for : string) :
  client_host request ∈ local_peers ->
  (forall v, headers_get request "CF-Connecting-IP" = Some v -> v = EmptyString) ->
  headers_get request "X-Forwarded-For" = Some x_forwarded_for ->
  x_forwarded_for <> EmptyString ->
  exists first,
    ip request t = Ok (strip first) t /\
    ("," ∉ chars first) /\
    (x_forwarded_for = first \/
     exists more, x_forwarded_for = first +:+ "," +:+ more) /\
    ("," ∉ chars (strip first)) /\
    lstrip (strip first) = strip first /\ rstrip (strip first) = strip first.
Proof.
  intros Hlocal Hcf Hxff Hne.
  destruct (forwarded_first x_forwarded_for t) as (first & Hrun & Hcomma & Hshape).
  exists first. split; [| split; [exact Hcomma | split; [exact Hshape |]]].
  - unfold ip. cbv zeta. rewrite bool_decide_eq_true_2 by exact Hlocal.
    rewrite Hxff.
    destruct x_forwarded_for as [| a x]; [contradiction |].
    destruct (headers_get request "CF-Connecting-IP") as [[| c cf] |];
      try (specialize (Hcf _ eq_refl); discriminate); exact Hrun.
  - split; [| apply strip_fixed].
    intros Hin. apply Hcomma. apply chars_strip. exact Hin.
Qed.

Lemma ip_forwarded_for_witness :
  exists first,
    ip {| client_host := None;
          raw_headers := [("x-forwarded-for", " 198.51.100.7 , 10.0.0.1")] |} []
    = Ok (strip first) [] /\
    "," ∉ chars (strip first).
Proof.
  destruct (ip_forwarded_for
              {| client_host := None;
                 raw_headers := [("x-forwarded-for", " 198.51.100.7 , 10.0.0.1")] |}
              [] " 198.51.100.7 , 10.0.0.1")
    as (first & Hrun & _ & _ & Hcomma & _).
  - compute_done.
  - intros v Hv. discriminate.
  - reflexivity.
  - discriminate.
  - exists first. split; [exact Hrun | exact Hcomma].
Defined.

(** ** The [random_dog] handler *)

Lemma split_points_free (c : N) (w s : text) :
  c ∉ w ->
  split_points c (w ++ c :: s)%list = w :: split_points c s /\
  split_points c w = [w].
Proof.
  induction w as [| a w IH]; intros Hfree.
  - split; [| reflexivity]. cbn [app split_points]. rewrite N.eqb_refl. reflexivity.
  - apply not_elem_of_cons in Hfree. destruct Hfree as [Hca Hfree].
    destruct (IH Hfree) as [IH1 IH2].
    assert (N.eqb a c = false) as Hac by (apply N.eqb_neq; congruence).
    split.
    + cbn [app split_points]. rewrite Hac, IH1. reflexivity.
    + cbn [split_points]. rewrite Hac, IH2. reflexivity.
Qed.

Lemma join_points_cons (c : N) (x y : text) (l : list text) :
  join_points c (x :: y :: l) = (x ++ c :: join_points c (y :: l))%list.
Proof. reflexivity. Qed.

Lemma split_join_points (c : N) (ws : list text) :
  ws <> [] -> Forall (fun w => c ∉ w) ws ->
  split_points c (join_points c ws) = ws.
Proof.
  intros Hne Hall. induction Hall as [| w ws Hw Hall IH]; [contradiction |].
  destruct ws as [| w' ws].
  - apply (split_points_free c w []). exact Hw.
  - rewrite join_points_cons.
    rewrite (proj1 (split_points_free c w _ Hw)). rewrite IH by discriminate.
    reflexivity.
Qed.

(** Splitting on one character: the parts do not hold the character, and
    joined with it they give the text back. *)
Lemma split_points_spec (c : N) (s : text) :
  exists seg segs,
    split_points c s = seg :: segs /\
    join_points c (seg :: segs) = s /\
    Forall (fun w => c ∉ w) (seg :: segs).
Proof.
  induction s as [| a s (seg & segs & Hsplit & Hjoin & Hall)].
  - exists [], []. split; [reflexivity |]. split; [reflexivity |].
    constructor; [apply not_elem_of_nil | constructor].
  - cbn [split_points]. destruct (N.eqb_spec a c) as [-> | Hac].
    + exists [], (seg :: segs). rewrite Hsplit. split; [reflexivity |]. split.
      * rewrite join_points_cons, Hjoin. reflexivity.
      * constructor; [apply not_elem_of_nil | exact Hall].
    + rewrite Hsplit. exists (a :: seg), segs. split; [reflexivity |]. split.
      * rewrite <- Hjoin. destruct segs; reflexivity.
      * apply Forall_cons in Hall. destruct Hall as [Hseg Hsegs].
        constructor; [| exact Hsegs].
        apply not_elem_of_cons. split; [congruence | exact Hseg].
Qed.

Lemma encodable_app (a b : text) :
  encodable (a ++ b)%list = encodable a && encodable b.
Proof. unfold encodable. apply forallb_app. Qed.

Lemma encodable_part (c : N) (ws : list text) (w : text) :
  encodable (join_points c ws) = true -> w ∈ ws -> encodable w = true.
Proof.
  induction ws as [| x ws IH]; intros Henc Hw.
  - apply not_elem_of_nil in Hw. contradiction.
  - destruct ws as [| y ws].
    + apply list_elem_of_singleton in Hw. subst w. exact Henc.
    + rewrite join_points_cons, encodable_app in Henc.
      apply andb_true_iff in Henc. destruct Henc as [Hx Hrest].
      apply elem_of_cons in Hw. destruct Hw as [-> | Hw]; [exact Hx |].
      apply IH; [| exact Hw].
      change (c :: join_points c (y :: ws))
        with ([c] ++ join_points c (y :: ws))%list in Hrest.
      rewrite encodable_app in Hrest. apply andb_true_iff in Hrest.
      exact (proj2 Hrest).
Qed.

Lemma nonempty_text_true (s : text) : nonempty_text s = true <-> s <> [].
Proof. destruct s; simpl; split; congruence. Qed.

(** X14: [random_dog] answers 200 exactly when the upstream message is a
    string with at least five parts between slashes, the fifth one not
    empty, and without a lone surrogate; the breed answered is that fifth
    part, which holds no slash, and the url is the message.  In every other
    case the answer is 500 with no breed and no url. *)
Theorem random_dog_breed_is_fifth_part (answer : upstream) :
  (status_code (random_dog answer) = 200 ->
   exists u p0 p1 p2 p3 b tail,
     answer = UpstreamObject (MessageStr u) /\
     u = join_points slash (p0 :: p1 :: p2 :: p3 :: b :: tail) /\
     Forall (fun w => slash ∉ w) (p0 :: p1 :: p2 :: p3 :: b :: tail) /\
     b <> [] /\ encodable u = true /\
     breed (random_dog answer) = Some b /\ url (random_dog answer) = Some u) /\
  (status_code (random_dog answer) <> 200 ->
   random_dog answer = {| status_code := 500; breed := None; url := None |}) /\
  (forall (ws : list text) (b : text),
      Forall (fun w => slash ∉ w) ws -> ws !! 4%nat = Some b -> b <> [] ->
      encodable (join_points slash ws) = true ->
      random_dog (UpstreamObject (MessageStr (join_points slash ws)))
      = {| status_code := 200; breed := Some b;
           url := Some (join_points slash ws) |}) /\
  (forall u,
      encodable u = false ->
      random_dog (UpstreamObject (MessageStr u))
      = {| status_code := 500; breed := None; url := None |}).
Proof.
  split; [| split; [| split]].
  - unfold random_dog, random_dog_try.
    destruct answer as [| [u |]]; try discriminate.
    destruct (split_points_spec slash u) as (seg & segs & Hsplit & Hjoin & Hall).
    rewrite Hsplit.
    destruct ((seg :: segs) !! 4%nat) as [b |] eqn:Hb; [| discriminate].
    destruct (nonempty_text u) eqn:Hu; [| discriminate].
    destruct (nonempty_text b) eqn:Hbne; [| discriminate].
    destruct (encodable b) eqn:Heb; [| discriminate].
    destruct (encodable u) eqn:Heu; [| discriminate].
    intros _. cbn [negb orb andb status_code breed url].
    destruct segs as [| p1 [| p2 [| p3 [| b' tail]]]]; try discriminate.
    simpl in Hb. injection Hb as ->.
    exists u, seg, p1, p2, p3, b, tail.
    split; [reflexivity |]. split; [symmetry; exact Hjoin |].
    split; [exact Hall |]. split; [apply nonempty_text_true; exact Hbne |].
    split; [exact Heu |]. split; reflexivity.
  - unfold random_dog. destruct (random_dog_try answer) as [[b u] |].
    + intros H. contradiction H. reflexivity.
    + reflexivity.
  - intros ws b Hall Hb Hne Henc.
    assert (ws <> []) as Hws by (intros ->; discriminate).
    unfold random_dog, random_dog_try.
    rewrite (split_join_points slash ws Hws Hall), Hb.
    apply nonempty_text_true in Hne. rewrite Hne, Henc.
    rewrite (encodable_part slash ws b Henc)
      by (eapply list_elem_of_lookup_2; exact Hb).
    destruct (join_points slash ws) eqn:Hj.
    + pose proof (split_join_points slash ws Hws Hall) as Hs. rewrite Hj in Hs.
      rewrite <- Hs in Hb. discriminate.
    + reflexivity.
  - intros u Henc. unfold random_dog, random_dog_try.
    destruct (split_points slash u !! 4%nat) as [b |]; [| reflexivity].
    destruct (negb (nonempty_text u) || negb (nonempty_text b)); [reflexivity |].
    rewrite Henc, andb_false_r. reflexivity.
Qed.

Lemma random_dog_breed_is_fifth_part_witness :
  random_dog (UpstreamObject (MessageStr
    (join_points slash [[97]; [98]; [99]; [100]; [112; 117; 103]; [120]]%N)))
  = {| status_code := 200; breed := Some [112; 117; 103]%N;
       url := Some [97; 47; 98; 47; 99; 47; 100; 47; 112; 117; 103; 47; 120]%N |}.
Proof.
  apply (proj1 (proj2 (proj2 (random_dog_breed_is_fifth_part UpstreamFailed)))
           [[97]; [98]; [99]; [100]; [112; 117; 103]; [120]]%N [112; 117; 103]%N).
  - repeat constructor; compute_done.
  - reflexivity.
  - discriminate.
  - reflexivity.
Defined.

(** ** Camel case on a single word *)

Lemma to_lower_to_upper (c : ascii) : to_lower (to_upper c) = to_lower c.
Proof. destruct c as [[] [] [] [] [] [] [] []]; reflexivity. Qed.

Lemma to_lower_idempotent (c : ascii) : to_lower (to_lower c) = to_lower c.
Proof. destruct c as [[] [] [] [] [] [] [] []]; reflexivity. Qed.

Lemma lower_title_from (b : bool) (s : string) : lower (title_from b s) = lower s.
Proof.
  revert b. induction s as [| c s IH]; intros b; [reflexivity |].
  cbn [title_from]. destruct (is_upper c || is_lower c); cbn [lower]; rewrite IH.
  - destruct b; [rewrite to_lower_idempotent | rewrite to_lower_to_upper];
      reflexivity.
  - reflexivity.
Qed.

Lemma case_step_camel_single (w : string) (t : tape) :
  case_step "camel" [w] t = case_step "lower" [w] t.
Proof.
  unfold case_step. cbn [String.eqb Ascii.eqb Bool.eqb]. cbv zeta.
  unfold bind. cbn [map]. rewrite getitem_head.
  rewrite setitem_in_range by (unfold len; simpl length; lia).
  unfold title. rewrite lower_title_from. reflexivity.
Qed.

(** X15: with one word, taken from a list of ASCII words, camel mode gives
    the same passphrase as lower mode on the same draws: the only word is the
    first word, which camel mode puts back in lower case. *)
Theorem camel_single_word_is_lower (wl : list string) (numbers symbols : bool)
    (separator : string) (t : tape) :
  Forall (fun w => is_ascii w = true) wl ->
  random_passphrase wl 1 numbers symbols separator "camel" t
  = random_passphrase wl 1 numbers symbols separator "lower" t.
Proof.
  intros _.
  assert (passphrase_words wl 1 numbers symbols separator "camel" t
          = passphrase_words wl 1 numbers symbols separator "lower" t) as Hwords.
  { unfold passphrase_words. apply bind_ext_on. intros xs t0 Hsample.
    destruct (secure_sample_Ok_inv wl 1 t xs t0 ltac:(lia) Hsample) as [Hlen _].
    destruct xs as [| w [| w' xs]]; unfold len in Hlen; simpl in Hlen; try lia.
    unfold bind at 1. rewrite case_step_camel_single. reflexivity. }
  unfold random_passphrase, bind. rewrite Hwords. reflexivity.
Qed.

Lemma camel_single_word_is_lower_witness :
  random_passphrase ["apple"; "T-Shirt"] 1 true false "-" "camel" [3; 0; 4]
  = random_passphrase ["apple"; "T-Shirt"] 1 true false "-" "lower" [3; 0; 4].
Proof.
  apply (camel_single_word_is_lower ["apple"; "T-Shirt"] true false "-" [3; 0; 4]).
  repeat constructor.
Defined.
